(** * cache2go: the cache table, its entries and the expiration scan

    A shallow embedding of [cacheitem.go] (the [CacheItem] and [CacheTable]
    halves of package [cache2go]) and the properties its specification
    states about it.

    The Go program is modelled as a sequential program over an explicit
    world:
    - [*CacheItem] is an index into a heap of item objects (Go never frees
      an object that is still referenced, so the heap only grows);
    - [map[interface{}]*CacheItem] is a [gmap] from keys to heap indices;
    - [time.Now()] reads the world clock, which moves only between calls;
    - user closures (the callbacks, the visitor of [Foreach]) are names;
      running one appends an event to the world's trace and does nothing
      else: a callback does not call back into the table;
    - the trace also records, in program order, the operations on the table
      mutex, the reads and writes of the entry map and the log lines, so
      that the order of effects and the extent of critical sections can be
      stated;
    - a dereference of an index outside the heap is the only way a call can
      abort ([None]); no well-formed world does it.

    The entry mutex ([CacheItem.RWMutex]) guards single field reads and
    writes against other goroutines; with one thread of control it has no
    effect and is left out. *)

From Stdlib Require Import ZArith String.
From stdpp Require Import gmap list sorting.

Local Open Scope Z_scope.

(** ** Machine integers *)

Definition min_int64 : Z := - 2 ^ 63.
Definition max_int64 : Z := 2 ^ 63 - 1.

Definition int64 (z : Z) : Prop := min_int64 ≤ z ≤ max_int64.

(** Two's complement wrap-around of Go's [int64] arithmetic. *)
Definition wrap64 (z : Z) : Z := (z + 2 ^ 63) `mod` 2 ^ 64 - 2 ^ 63.

(** [time.Time.Sub]: the difference of two instants, saturated to the range
    of [time.Duration]. *)
Definition Sub (t u : Z) : Z := Z.max min_int64 (Z.min max_int64 (t - u)).

(** Heap indices, closure names and logger handles. *)
Abbreviation loc := nat (only parsing).
Abbreviation func := nat (only parsing).
Abbreviation Logger := nat (only parsing).

(** Modelled from the spec: the two error values of the package
    ([errors.go] is not among the sources); the specification calls them
    [KeyNotFound] and [KeyNotFoundOrLoadable]. *)
Inductive error : Set :=
  | ErrKeyNotFound
  | ErrKeyNotFoundOrLoadable.

Section cache2go.
Context {K : Type} `{Countable K} {V : Type}.

(** ** Data model *)

Record CacheItem := mkCacheItem {
  key : K;
  data : V;
  lifeSpan : Z;
  createdOn : Z;
  accessedOn : Z;
  accessCount : Z;
  aboutToExpire : option func;
}.

(** A [*time.Timer] made by [time.AfterFunc]: its duration, the instant it
    is due and whether it is still pending. The table is the only holder
    of the pointer, so the object is kept in the field itself. *)
Record Timer := mkTimer {
  timer_d : Z;
  timer_when : Z;
  timer_active : bool;
}.

Record CacheTable := mkCacheTable {
  name : string;
  items : gmap K loc;
  cleanupTimer : option Timer;
  cleanupInterval : Z;
  logger : option Logger;
  loadData : option (Z → K → list V → option CacheItem);
  addedItem : option func;
  aboutToDeleteItem : option func;
}.

Record CacheItemPair := mkCacheItemPair {
  Key : K;
  AccessCount : Z;
}.

(** [CacheItemPairList.Less] on two elements. *)
Definition Less (a b : CacheItemPair) : bool := AccessCount b <? AccessCount a.

(** The lines [table.log] is called with. *)
Inductive LogLine :=
  | LogExpirationTriggered (d : Z) (n : string)
  | LogExpirationInstalled (n : string)
  | LogAdding (k : K) (l : Z) (n : string)
  | LogDeleting (k : K) (created : Z) (hits : Z) (n : string)
  | LogFlushing (n : string).

Inductive Event :=
  | EvLock
  | EvUnlock
  | EvRLock
  | EvRUnlock
  | EvLookup (k : K) (r : option loc)
  | EvStore (k : K) (p : loc)
  | EvRemove (k : K)
  | EvClear
  | EvLog (lg : Logger) (m : LogLine)
  | EvLoadData (k : K) (args : list V)
  | EvAddedItem (f : func) (p : loc)
  | EvAboutToDeleteItem (f : func) (p : loc)
  | EvAboutToExpire (f : func) (k : K)
  | EvTrans (f : func) (k : K) (p : loc).

Record World := mkWorld {
  clock : Z;
  heap : list CacheItem;
  table : CacheTable;
  trace : list Event;
}.

(** What the Go runtime leaves open: the order in which [range] visits a
    map, and which of the sorted permutations [sort.Sort] produces. *)
Class GoRuntime := {
  map_range : gmap K loc → list (K * loc);
  map_range_perm m : map_range m ≡ₚ map_to_list m;
  sort_Sort : list CacheItemPair → list CacheItemPair;
  sort_Sort_perm p : sort_Sort p ≡ₚ p;
  sort_Sort_sorted p : StronglySorted (λ a b, Less b a = false) (sort_Sort p);
}.

(** ** The monad of calls: state, and abort on a dangling pointer *)

Definition M (A : Type) : Type := World → option (A * World).

#[export] Instance M_ret : MRet M := λ A a w, Some (a, w).
#[export] Instance M_bind : MBind M := λ A B f m w,
  match m w with
  | Some (a, w') => f a w'
  | None => None
  end.

Definition getTable : M CacheTable := λ w, Some (table w, w).
Definition setTable (t : CacheTable) : M unit := λ w,
  Some ((), mkWorld (clock w) (heap w) t (trace w)).
Definition emit (e : Event) : M unit := λ w,
  Some ((), mkWorld (clock w) (heap w) (table w) (trace w ++ [e])).

(** [time.Now()] *)
Definition Now : M Z := λ w, Some (clock w, w).

(** [&item] for a local [item] that outlives the call: a new heap object. *)
Definition alloc (it : CacheItem) : M loc := λ w,
  Some (length (heap w), mkWorld (clock w) (heap w ++ [it]) (table w) (trace w)).
Definition load (p : loc) : M CacheItem := λ w,
  match heap w !! p with
  | Some it => Some (it, w)
  | None => None
  end.
Definition store (p : loc) (it : CacheItem) : M unit := λ w,
  match heap w !! p with
  | Some _ => Some ((), mkWorld (clock w) (<[p := it]> (heap w)) (table w) (trace w))
  | None => None
  end.

Fixpoint foldM {A B : Type} (f : B → A → M B) (b : B) (l : list A) : M B :=
  match l with
  | [] => mret b
  | a :: l' => b' ← f b a; foldM f b' l'
  end.

Fixpoint forM {A : Type} (f : A → M unit) (l : list A) : M unit :=
  match l with
  | [] => mret ()
  | a :: l' => f a;; forM f l'
  end.

Fixpoint mapM' {A B : Type} (f : A → M B) (l : list A) : M (list B) :=
  match l with
  | [] => mret []
  | a :: l' => b ← f a; bs ← mapM' f l'; mret (b :: bs)
  end.

(** Field updates of the table. *)
Definition with_items (m : gmap K loc) (t : CacheTable) : CacheTable :=
  mkCacheTable (name t) m (cleanupTimer t) (cleanupInterval t) (logger t)
    (loadData t) (addedItem t) (aboutToDeleteItem t).
Definition with_cleanupTimer (c : option Timer) (t : CacheTable) : CacheTable :=
  mkCacheTable (name t) (items t) c (cleanupInterval t) (logger t)
    (loadData t) (addedItem t) (aboutToDeleteItem t).
Definition with_cleanupInterval (d : Z) (t : CacheTable) : CacheTable :=
  mkCacheTable (name t) (items t) (cleanupTimer t) d (logger t)
    (loadData t) (addedItem t) (aboutToDeleteItem t).
Definition with_logger (l : option Logger) (t : CacheTable) : CacheTable :=
  mkCacheTable (name t) (items t) (cleanupTimer t) (cleanupInterval t) l
    (loadData t) (addedItem t) (aboutToDeleteItem t).
Definition with_loadData (f : option (Z → K → list V → option CacheItem))
    (t : CacheTable) : CacheTable :=
  mkCacheTable (name t) (items t) (cleanupTimer t) (cleanupInterval t) (logger t)
    f (addedItem t) (aboutToDeleteItem t).
Definition with_addedItem (f : option func) (t : CacheTable) : CacheTable :=
  mkCacheTable (name t) (items t) (cleanupTimer t) (cleanupInterval t) (logger t)
    (loadData t) f (aboutToDeleteItem t).
Definition with_aboutToDeleteItem (f : option func) (t : CacheTable) : CacheTable :=
  mkCacheTable (name t) (items t) (cleanupTimer t) (cleanupInterval t) (logger t)
    (loadData t) (addedItem t) f.

Definition modifyTable (f : CacheTable → CacheTable) : M unit :=
  t ← getTable; setTable (f t).

(** The table mutex. *)
Definition Lock : M unit := emit EvLock.
Definition Unlock : M unit := emit EvUnlock.
Definition RLock : M unit := emit EvRLock.
Definition RUnlock : M unit := emit EvRUnlock.

(** [table.items[k]], [table.items[k] = p], [delete(table.items, k)]. *)
Definition lookupItem (k : K) : M (option loc) :=
  t ← getTable; emit (EvLookup k (items t !! k));; mret (items t !! k).
Definition storeItem (k : K) (p : loc) : M unit :=
  modifyTable (λ t, with_items (<[k := p]> (items t)) t);; emit (EvStore k p).
Definition deleteItem (k : K) : M unit :=
  modifyTable (λ t, with_items (delete k (items t)) t);; emit (EvRemove k).

(** Calling a closure that may be nil. *)
Definition call (f : option func) (ev : func → Event) : M unit :=
  match f with
  | Some g => emit (ev g)
  | None => mret ()
  end.

(** ** CacheItem *)

Definition CreateCacheItem (k : K) (l : Z) (d : V) : M CacheItem :=
  t ← Now;
  mret {| key := k; lifeSpan := l; createdOn := t; accessedOn := t;
          accessCount := 0; aboutToExpire := None; data := d |}.

Definition KeepAlive (p : loc) : M unit :=
  it ← load p;
  t ← Now;
  store p (mkCacheItem (key it) (data it) (lifeSpan it) (createdOn it)
             t (wrap64 (accessCount it + 1)) (aboutToExpire it)).

(** The read accessors ([LifeSpan], [AccessedOn], [CreatedOn],
    [AccessCount], [Key], [Data]) return a field and change nothing. *)

Definition SetAboutToExpireCallback (p : loc) (f : option func) : M unit :=
  it ← load p;
  store p (mkCacheItem (key it) (data it) (lifeSpan it) (createdOn it)
             (accessedOn it) (accessCount it) f).

(** ** CacheTable *)

(** [table.log]: a line goes to the logger when there is one. *)
Definition log (m : LogLine) : M unit :=
  t ← getTable;
  match logger t with
  | None => mret ()
  | Some lg => emit (EvLog lg m)
  end.

Definition Count : M nat :=
  RLock;;
  t ← getTable;
  RUnlock;;
  mret (size (items t)).

Definition Foreach `{!GoRuntime} (trans : func) : M unit :=
  RLock;;
  t ← getTable;
  forM (λ kv, emit (EvTrans trans kv.1 kv.2)) (map_range (items t));;
  RUnlock.

Definition SetDataLoader (f : option (Z → K → list V → option CacheItem)) : M unit :=
  Lock;; modifyTable (with_loadData f);; Unlock.
Definition SetAddedItemCallback (f : option func) : M unit :=
  Lock;; modifyTable (with_addedItem f);; Unlock.
Definition SetAboutToDeleteItemCallback (f : option func) : M unit :=
  Lock;; modifyTable (with_aboutToDeleteItem f);; Unlock.
Definition SetLogger (l : option Logger) : M unit :=
  Lock;; modifyTable (with_logger l);; Unlock.

Definition Delete (k : K) : M (loc + error) :=
  RLock;;
  o ← lookupItem k;
  match o with
  | None => RUnlock;; mret (inr ErrKeyNotFound)
  | Some r =>
      t ← getTable;
      let aboutToDeleteItem := aboutToDeleteItem t in
      RUnlock;;
      call aboutToDeleteItem (λ f, EvAboutToDeleteItem f r);;
      it ← load r;
      call (aboutToExpire it) (λ f, EvAboutToExpire f k);;
      Lock;;
      t ← getTable;
      log (LogDeleting k (createdOn it) (accessCount it) (name t));;
      deleteItem k;;
      Unlock;;
      mret (inl r)
  end.

(** [cleanupTimer.Stop()] and [time.AfterFunc]. *)
Definition Stop (c : Timer) : Timer := mkTimer (timer_d c) (timer_when c) false.
Definition AfterFunc (now d : Z) : Timer := mkTimer d (now + d) true.

(** One iteration of the loop of [expirationCheck]. The loop ranges
    over the live map ([items := table.items] copies the reference, not
    the map) while [Delete] removes from it; an iteration removes no key
    but the one it is visiting, so the keys visited are those of the map
    at the start of the loop. *)
Definition expirationCheck_body (now : Z) (smallestDuration : Z) (kv : K * loc) : M Z :=
  let '(k, item) := kv in
  it ← load item;
  let lifeSpan := lifeSpan it in
  let accessedOn := accessedOn it in
  if lifeSpan =? 0 then mret smallestDuration
  else if lifeSpan <=? Sub now accessedOn then
    Delete k;; mret smallestDuration
  else if (smallestDuration =? 0)
          || (wrap64 (lifeSpan - Sub now accessedOn) <? smallestDuration) then
    mret (wrap64 (lifeSpan - Sub now accessedOn))
  else mret smallestDuration.

Definition expirationCheck `{!GoRuntime} : M unit :=
  Lock;;
  t ← getTable;
  match cleanupTimer t with
  | Some c => setTable (with_cleanupTimer (Some (Stop c)) t)
  | None => mret ()
  end;;
  (if 0 <? cleanupInterval t
   then log (LogExpirationTriggered (cleanupInterval t) (name t))
   else log (LogExpirationInstalled (name t)));;
  let items := items t in
  Unlock;;
  now ← Now;
  smallestDuration ← foldM (expirationCheck_body now) 0 (map_range items);
  Lock;;
  modifyTable (with_cleanupInterval smallestDuration);;
  (if 0 <? smallestDuration
   then t' ← Now; modifyTable (with_cleanupTimer (Some (AfterFunc t' smallestDuration)))
   else mret ());;
  Unlock.

Definition Add `{!GoRuntime} (k : K) (lifeSpan : Z) (d : V) : M loc :=
  item ← CreateCacheItem k lifeSpan d;
  item ← alloc item;
  Lock;;
  t ← getTable;
  log (LogAdding k lifeSpan (name t));;
  storeItem k item;;
  t ← getTable;
  let expDur := cleanupInterval t in
  let addedItem := addedItem t in
  Unlock;;
  call addedItem (λ f, EvAddedItem f item);;
  (if (0 <? lifeSpan) && ((expDur =? 0) || (lifeSpan <? expDur))
   then expirationCheck
   else mret ());;
  mret item.

Definition Exists (k : K) : M bool :=
  RLock;;
  o ← lookupItem k;
  RUnlock;;
  mret (bool_decide (is_Some o)).

Definition NotFoundAdd `{!GoRuntime} (k : K) (lifeSpan : Z) (d : V) : M bool :=
  Lock;;
  o ← lookupItem k;
  match o with
  | Some _ => Unlock;; mret false
  | None =>
      item ← CreateCacheItem k lifeSpan d;
      item ← alloc item;
      t ← getTable;
      log (LogAdding k lifeSpan (name t));;
      storeItem k item;;
      t ← getTable;
      let expDur := cleanupInterval t in
      let addedItem := addedItem t in
      Unlock;;
      call addedItem (λ f, EvAddedItem f item);;
      (if (0 <? lifeSpan) && ((expDur =? 0) || (lifeSpan <? expDur))
       then expirationCheck
       else mret ());;
      mret true
  end.

(** [loadData] is user code: it is given the instant of the call and
    answers nil or the contents of the item object it returns, which is
    then an object of the heap. *)
Definition Value `{!GoRuntime} (k : K) (args : list V) : M (loc + error) :=
  RLock;;
  o ← lookupItem k;
  t ← getTable;
  let loadData := loadData t in
  RUnlock;;
  match o with
  | Some r => KeepAlive r;; mret (inl r)
  | None =>
      match loadData with
      | Some f =>
          emit (EvLoadData k args);;
          now ← Now;
          match f now k args with
          | Some e =>
              item ← alloc e;
              it ← load item;
              Add k (lifeSpan it) (data it);;
              mret (inl item)
          | None => mret (inr ErrKeyNotFoundOrLoadable)
          end
      | None => mret (inr ErrKeyNotFound)
      end
  end.

Definition Flush : M unit :=
  Lock;;
  t ← getTable;
  log (LogFlushing (name t));;
  modifyTable (with_items ∅);; emit EvClear;;
  modifyTable (with_cleanupInterval 0);;
  t ← getTable;
  match cleanupTimer t with
  | Some c => setTable (with_cleanupTimer (Some (Stop c)) t)
  | None => mret ()
  end;;
  Unlock.

(** The second loop of [MostAccessed]: [c] counts the pairs visited, [r]
    collects the items found. *)
Fixpoint MostAccessed_loop (count c : Z) (p : list CacheItemPair) (r : list loc)
    : M (list loc) :=
  match p with
  | [] => mret r
  | v :: p' =>
      if count <=? c then mret r
      else
        o ← lookupItem (Key v);
        MostAccessed_loop count (wrap64 (c + 1)) p'
          (match o with Some item => r ++ [item] | None => r end)
  end.

Definition MostAccessed `{!GoRuntime} (count : Z) : M (list loc) :=
  RLock;;
  t ← getTable;
  p ← mapM' (λ kv, it ← load kv.2; mret (mkCacheItemPair kv.1 (accessCount it)))
        (map_range (items t));
  r ← MostAccessed_loop count 0 (sort_Sort p) [];
  RUnlock;;
  mret r.

(** ** Callers

    What the rest of the program can do to a table and to the items it
    holds pointers to, one call at a time; between calls time may pass and
    the pending timer may fire, which runs [expirationCheck]. *)

Inductive Op :=
  | OpSleep (d : N)
  | OpTimer
  | OpCreateCacheItem (k : K) (l : Z) (d : V)
  | OpKeepAlive (p : loc)
  | OpSetAboutToExpireCallback (p : loc) (f : option func)
  | OpCount
  | OpForeach (f : func)
  | OpSetDataLoader (f : option (Z → K → list V → option CacheItem))
  | OpSetAddedItemCallback (f : option func)
  | OpSetAboutToDeleteItemCallback (f : option func)
  | OpSetLogger (l : option Logger)
  | OpAdd (k : K) (l : Z) (d : V)
  | OpDelete (k : K)
  | OpExists (k : K)
  | OpNotFoundAdd (k : K) (l : Z) (d : V)
  | OpValue (k : K) (args : list V)
  | OpFlush
  | OpMostAccessed (n : Z).

Definition Sleep (d : N) : M unit := λ w,
  Some ((), mkWorld (clock w + Z.of_N d) (heap w) (table w) (trace w)).

(** The function given to [time.AfterFunc] runs when the timer is pending
    and due. *)
Definition timerFires `{!GoRuntime} : M unit :=
  t ← getTable;
  now ← Now;
  match cleanupTimer t with
  | Some c =>
      if timer_active c && (timer_when c <=? now)
      then setTable (with_cleanupTimer (Some (Stop c)) t);; expirationCheck
      else mret ()
  | None => mret ()
  end.

Definition void {A : Type} (m : M A) : M unit := m;; mret ().

Definition exec `{!GoRuntime} (o : Op) : M unit :=
  match o with
  | OpSleep d => Sleep d
  | OpTimer => timerFires
  | OpCreateCacheItem k l d => it ← CreateCacheItem k l d; void (alloc it)
  | OpKeepAlive p => KeepAlive p
  | OpSetAboutToExpireCallback p f => SetAboutToExpireCallback p f
  | OpCount => void Count
  | OpForeach f => Foreach f
  | OpSetDataLoader f => SetDataLoader f
  | OpSetAddedItemCallback f => SetAddedItemCallback f
  | OpSetAboutToDeleteItemCallback f => SetAboutToDeleteItemCallback f
  | OpSetLogger l => SetLogger l
  | OpAdd k l d => void (Add k l d)
  | OpDelete k => void (Delete k)
  | OpExists k => void (Exists k)
  | OpNotFoundAdd k l d => void (NotFoundAdd k l d)
  | OpValue k args => void (Value k args)
  | OpFlush => Flush
  | OpMostAccessed n => void (MostAccessed n)
  end.

(** Modelled from the spec: the table constructor of the registry
    ([cache.go] is not among the sources). A table starts with no entries,
    no hooks, no logger and an idle scheduler. *)
Definition newTable (n : string) : CacheTable :=
  mkCacheTable n ∅ None 0 None None None None.

Definition newWorld (now : Z) (n : string) : World :=
  mkWorld now [] (newTable n) [].

(** ** Well-formed worlds *)

(** An item object as Go code can have it: its duration and its counter
    are [int64] values, and it was created, and last accessed, no later
    than now. *)
Definition item_ok (now : Z) (it : CacheItem) : Prop :=
  createdOn it ≤ accessedOn it ∧ accessedOn it ≤ now ∧
  int64 (lifeSpan it) ∧ int64 (accessCount it).

Definition loader_ok (f : Z → K → list V → option CacheItem) : Prop :=
  ∀ now k args e, f now k args = Some e → item_ok now e.

(** Every pointer in the entry map points to an object. *)
Definition valid (w : World) : Prop :=
  ∀ k p, items (table w) !! k = Some p → is_Some (heap w !! p).

(** An entry is stored under the key it was created with. *)
Definition keyed (w : World) : Prop :=
  ∀ k p it, items (table w) !! k = Some p → heap w !! p = Some it → key it = k.

Definition wf (w : World) : Prop :=
  valid w ∧
  Forall (item_ok (clock w)) (heap w) ∧
  (∀ f, loadData (table w) = Some f → loader_ok f) ∧
  keyed w.

(** A call a Go caller can make in world [w]: durations are [int64]
    values, item pointers point to objects, a loader returns item objects. *)
Definition op_ok (w : World) (o : Op) : Prop :=
  match o with
  | OpCreateCacheItem _ l _ | OpAdd _ l _ | OpNotFoundAdd _ l _ => int64 l
  | OpKeepAlive p | OpSetAboutToExpireCallback p _ => (p < length (heap w))%nat
  | OpSetDataLoader (Some f) => loader_ok f
  | _ => True
  end.

Inductive steps `{!GoRuntime} : World → list Op → World → Prop :=
  | steps_nil w : steps w [] w
  | steps_cons w o w1 os w2 :
      op_ok w o → exec o w = Some ((), w1) → steps w1 os w2 →
      steps w (o :: os) w2.

(** ** What the calls append to the trace and leave in the table *)

Definition opt_ev (f : option func) (ev : func → Event) : list Event :=
  match f with
  | Some g => [ev g]
  | None => []
  end.

Definition log_ev (t : CacheTable) (m : LogLine) : list Event :=
  match logger t with
  | Some lg => [EvLog lg m]
  | None => []
  end.

(** The effects of a successful [Delete k] of the item [it] at [r]. *)
Definition Delete_events (t : CacheTable) (k : K) (r : loc) (it : CacheItem)
    : list Event :=
  [EvRLock; EvLookup k (Some r); EvRUnlock]
  ++ opt_ev (aboutToDeleteItem t) (λ f, EvAboutToDeleteItem f r)
  ++ opt_ev (aboutToExpire it) (λ f, EvAboutToExpire f k)
  ++ [EvLock]
  ++ log_ev t (LogDeleting k (createdOn it) (accessCount it) (name t))
  ++ [EvRemove k; EvUnlock].

(** Time since the last access, and whether the scan at [now] finds the
    item past its life span. *)
Definition idle (now : Z) (it : CacheItem) : Z := Sub now (accessedOn it).

Definition expired (now : Z) (it : CacheItem) : bool :=
  negb (lifeSpan it =? 0) && (lifeSpan it <=? idle now it).

Definition remaining (now : Z) (it : CacheItem) : Z := lifeSpan it - idle now it.

Definition expired_at (now : Z) (hp : list CacheItem) (p : loc) : bool :=
  match hp !! p with
  | Some it => expired now it
  | None => false
  end.

(** The loop of [expirationCheck] as a function of the list [range]
    yields: the running minimum, the entry map and the events. *)
Definition next_smallest (now : Z) (hp : list CacheItem) (s : Z) (kv : K * loc) : Z :=
  match hp !! kv.2 with
  | Some it =>
      if (lifeSpan it =? 0) || (lifeSpan it <=? idle now it) then s
      else if (s =? 0) || (wrap64 (remaining now it) <? s)
           then wrap64 (remaining now it) else s
  | None => s
  end.

Definition scan_smallest (now : Z) (hp : list CacheItem) (s : Z) (kvs : list (K * loc)) : Z :=
  foldl (next_smallest now hp) s kvs.

Definition scan_items (now : Z) (hp : list CacheItem) (kvs : list (K * loc))
    (m : gmap K loc) : gmap K loc :=
  foldl (λ m kv, if expired_at now hp kv.2 then delete kv.1 m else m) m kvs.

Definition scan_events (now : Z) (hp : list CacheItem) (t : CacheTable)
    (kvs : list (K * loc)) : list Event :=
  flat_map (λ kv,
    match hp !! kv.2 with
    | Some it => if expired now it then Delete_events t kv.1 kv.2 it else []
    | None => []
    end) kvs.

(** The whole of [expirationCheck] at instant [now], with [kvs] what
    [range] yields: the line it logs, the table it leaves and the events
    it appends. *)
Definition scan_log (t : CacheTable) : LogLine :=
  if 0 <? cleanupInterval t
  then LogExpirationTriggered (cleanupInterval t) (name t)
  else LogExpirationInstalled (name t).

Definition scan_table (now : Z) (hp : list CacheItem) (kvs : list (K * loc))
    (t : CacheTable) : CacheTable :=
  let s := scan_smallest now hp 0 kvs in
  let t1 := with_cleanupInterval s
              (with_items (scan_items now hp kvs (items t))
                 (with_cleanupTimer (Stop <$> cleanupTimer t) t)) in
  if 0 <? s then with_cleanupTimer (Some (AfterFunc now s)) t1 else t1.

Definition expirationCheck_events (now : Z) (hp : list CacheItem) (kvs : list (K * loc))
    (t : CacheTable) : list Event :=
  [EvLock] ++ log_ev t (scan_log t) ++ [EvUnlock]
  ++ scan_events now hp t kvs ++ [EvLock; EvUnlock].

(** [CreateCacheItem] at instant [now]. *)
Definition new_item (now : Z) (k : K) (l : Z) (d : V) : CacheItem :=
  mkCacheItem k d l now now 0 None.

(** The condition under which [Add] and [NotFoundAdd] run the scan. *)
Definition scan_due (l : Z) (t : CacheTable) : bool :=
  (0 <? l) && ((cleanupInterval t =? 0) || (l <? cleanupInterval t)).

(** The world [Add] (with [pre = [EvLock]]) and [NotFoundAdd] (with
    [pre = [EvLock; EvLookup k None]]) reach once the new item is in the
    map and [addedItem] has been called. *)
Definition inserted (pre : list Event) (k : K) (l : Z) (d : V) (w : World) : World :=
  let p := length (heap w) in
  mkWorld (clock w) (heap w ++ [new_item (clock w) k l d])
    (with_items (<[k := p]> (items (table w))) (table w))
    (trace w ++ pre ++ log_ev (table w) (LogAdding k l (name (table w)))
       ++ [EvStore k p; EvUnlock]
       ++ opt_ev (addedItem (table w)) (λ f, EvAddedItem f p)).

(** The item [KeepAlive] leaves at instant [now]. *)
Definition kept_alive (now : Z) (it : CacheItem) : CacheItem :=
  mkCacheItem (key it) (data it) (lifeSpan it) (createdOn it) now
    (wrap64 (accessCount it + 1)) (aboutToExpire it).

(** The table [Flush] leaves. *)
Definition flushed (t : CacheTable) : CacheTable :=
  with_cleanupTimer (Stop <$> cleanupTimer t)
    (with_cleanupInterval 0 (with_items ∅ t)).

(** [MostAccessed] in steps: the pair the first loop makes of an entry,
    and the result and the events of the second loop over the map [m]. *)
Definition pair_of (hp : list CacheItem) (kv : K * loc) : CacheItemPair :=
  mkCacheItemPair kv.1 (from_option accessCount 0 (hp !! kv.2)).

Fixpoint loop_result (m : gmap K loc) (count c : Z) (ps : list CacheItemPair)
    (r : list loc) : list loc :=
  match ps with
  | [] => r
  | v :: ps' =>
      if count <=? c then r
      else loop_result m count (wrap64 (c + 1)) ps'
             (match m !! Key v with Some item => r ++ [item] | None => r end)
  end.

Fixpoint loop_events (m : gmap K loc) (count c : Z) (ps : list CacheItemPair)
    : list Event :=
  match ps with
  | [] => []
  | v :: ps' =>
      if count <=? c then []
      else EvLookup (Key v) (m !! Key v) :: loop_events m count (wrap64 (c + 1)) ps'
  end.

(** The order [MostAccessed] promises: no later item has more hits than
    an earlier one. *)
Definition hits_ge (hp : list CacheItem) (p q : loc) : Prop :=
  ∀ ip iq, hp !! p = Some ip → hp !! q = Some iq → accessCount iq ≤ accessCount ip.

(** What a call at instant [now] can do to an item object: nothing to
    its key, data, life span and creation time; its access time and
    counter stay, or move as [KeepAlive] moves them. *)
Definition item_evolves (now : Z) (it it' : CacheItem) : Prop :=
  key it' = key it ∧ data it' = data it ∧ lifeSpan it' = lifeSpan it ∧
  createdOn it' = createdOn it ∧
  ((accessedOn it' = accessedOn it ∧ accessCount it' = accessCount it) ∨
   (accessedOn it' = now ∧ accessCount it' = wrap64 (accessCount it + 1))).

Definition heap_step (now : Z) (hp hp' : list CacheItem) : Prop :=
  ∀ p it, hp !! p = Some it → ∃ it', hp' !! p = Some it' ∧ item_evolves now it it'.

(** The event concerns the entry of key [k] or the item object at [p]. *)
Definition touches (k : K) (p : loc) (e : Event) : Prop :=
  match e with
  | EvLookup k' _ | EvRemove k' | EvAboutToExpire _ k'
  | EvLog _ (LogAdding k' _ _) | EvLog _ (LogDeleting k' _ _ _) => k' = k
  | EvAddedItem _ q | EvAboutToDeleteItem _ q => q = p
  | EvStore k' q | EvTrans _ k' q => k' = k ∨ q = p
  | _ => False
  end.

(** The key is in the table, bound to an item with a finite life span. *)
Definition mortal (w : World) (k : K) (it : CacheItem) : Prop :=
  ∃ p, items (table w) !! k = Some p ∧ heap w !! p = Some it ∧ 0 < lifeSpan it.

(** The timer the table waits for, if any. *)
Definition pendingTimer (t : CacheTable) : option Timer :=
  match cleanupTimer t with
  | Some c => if timer_active c then Some c else None
  | None => None
  end.

(** The events that are calls of user code. *)
Definition is_callback (e : Event) : bool :=
  match e with
  | EvLoadData _ _ | EvAddedItem _ _ | EvAboutToDeleteItem _ _
  | EvAboutToExpire _ _ | EvTrans _ _ _ => true
  | _ => false
  end.

(** ** The rest of the two types *)

(** The read accessors of [CacheItem]. [ItemKey] and [ItemAccessCount]
    are the methods [Key] and [AccessCount]; the fields of
    [CacheItemPair] hold these names here. *)
Definition LifeSpan (p : loc) : M Z := it ← load p; mret (lifeSpan it).
Definition AccessedOn (p : loc) : M Z := it ← load p; mret (accessedOn it).
Definition CreatedOn (p : loc) : M Z := it ← load p; mret (createdOn it).
Definition ItemAccessCount (p : loc) : M Z := it ← load p; mret (accessCount it).
Definition ItemKey (p : loc) : M K := it ← load p; mret (key it).
Definition Data (p : loc) : M V := it ← load p; mret (data it).

(** [CacheItemPairList] as [sort.Interface]: [Len], [Swap] and [Less] on
    indices. An index outside the slice is a run-time panic ([None]). *)
Definition Len (ps : list CacheItemPair) : nat := length ps.

Definition Swap (i j : nat) (ps : list CacheItemPair) : option (list CacheItemPair) :=
  match ps !! i, ps !! j with
  | Some a, Some b => Some (<[j := a]> (<[i := b]> ps))
  | _, _ => None
  end.

Definition Less_at (i j : nat) (ps : list CacheItemPair) : option bool :=
  match ps !! i, ps !! j with
  | Some a, Some b => Some (Less a b)
  | _, _ => None
  end.

(** The instant at which an item's life span runs out if it is not
    accessed again. *)
Definition deadline (it : CacheItem) : Z := accessedOn it + lifeSpan it.

(** The state of the scheduler: the interval is not negative; a timer is
    pending exactly when it is positive, and then the timer was set for
    that interval, no later than now. *)
Definition armed (w : World) : Prop :=
  0 ≤ cleanupInterval (table w) ∧
  match pendingTimer (table w) with
  | Some c => timer_d c = cleanupInterval (table w) ∧ 0 < timer_d c ∧
              timer_when c ≤ clock w + timer_d c
  | None => cleanupInterval (table w) = 0
  end.

(** Every entry with a positive life span has a pending timer that is
    due no later than the entry's deadline. *)
Definition covered (w : World) : Prop :=
  ∀ k p it, items (table w) !! k = Some p → heap w !! p = Some it →
    0 < lifeSpan it →
    ∃ c, pendingTimer (table w) = Some c ∧ timer_when c ≤ deadline it.

(** The worlds a run of calls reaches from a new table. *)
Definition reachable `{!GoRuntime} (w : World) : Prop :=
  ∃ now n os, steps (newWorld now n) os w.

End cache2go.

Arguments CacheItem : clear implicits.
Arguments CacheItemPair : clear implicits.
Arguments LogLine : clear implicits.
Arguments Event : clear implicits.
Arguments CacheTable K {_ _} V.
Arguments World K {_ _} V.
Arguments GoRuntime K {_ _}.
Arguments Op K V : clear implicits.

(** ** A runtime and some worlds to run the model on *)

Module Example.

(** [CacheItemPairList.Less] read as the order of a sorted list. *)
Definition desc (a b : CacheItemPair nat) : Prop := Less b a = false.

#[local] Instance desc_dec a b : Decision (desc a b) :=
  decide (Less b a = false).

#[local] Instance desc_total : Total desc.
Proof.
  intros a b. unfold desc, Less. rewrite !Z.ltb_ge. lia.
Qed.

#[local] Instance desc_trans : Transitive desc.
Proof.
  intros a b c. unfold desc, Less. rewrite !Z.ltb_ge. lia.
Qed.

(** A runtime that ranges over maps in key order and sorts by merging. *)
#[global] Instance rt : GoRuntime nat := {|
  map_range := map_to_list;
  map_range_perm m := reflexivity (map_to_list m);
  sort_Sort := merge_sort desc;
  sort_Sort_perm := merge_sort_Permutation desc;
  sort_Sort_sorted := StronglySorted_merge_sort desc;
|}.

Definition run (os : list (Op nat string)) (w : World nat string) : World nat string :=
  from_option snd w (forM exec os w).

(** A loader that knows key 5 and no other. *)
Definition loader (now : Z) (k : nat) (args : list string) : option (CacheItem nat string) :=
  if (k =? 5)%nat
  then Some (mkCacheItem 5%nat "five"%string 3 now now 4 (Some 11%nat))
  else None.

Definition w0 : World nat string := newWorld 0 "t".

(** Three entries at instant 7: key 1 with life span 10, last read at 6;
    key 2 with life span 0; key 3 with life span 5, never read, with an
    expiry callback. All three table callbacks and the loader are set. *)
Definition ops1 : list (Op nat string) :=
  [OpSetAddedItemCallback (Some 7%nat);
   OpSetAboutToDeleteItemCallback (Some 8%nat);
   OpSetDataLoader (Some loader);
   OpAdd 1%nat 10 "a"%string;
   OpAdd 2%nat 0 "b"%string;
   OpAdd 3%nat 5 "c"%string;
   OpSetAboutToExpireCallback 2%nat (Some 9%nat);
   OpSleep 6;
   OpValue 1%nat [];
   OpSleep 1].

Definition w1 : World nat string := Eval vm_compute in run ops1 w0.

(** Two units later key 1 is read again and key 4 is added. *)
Definition ops2 : list (Op nat string) :=
  [OpSleep 2; OpValue 1%nat []; OpAdd 4%nat 3 "d"%string].

Definition w2 : World nat string := Eval vm_compute in run ops2 w1.

(** One entry that never expires, and its item kept alive as many times
    as the largest [int64] counts. *)
Definition wa : World nat string :=
  Eval vm_compute in run [OpAdd 1%nat 0 "a"%string] w0.

Definition ops_wrap : list (Op nat string) :=
  OpAdd 1%nat 0 "a"%string :: replicate (Z.to_nat max_int64) (OpKeepAlive 0%nat).

(** A slice of two pairs. *)
Definition pairs : list (CacheItemPair nat) :=
  [mkCacheItemPair 1%nat 5; mkCacheItemPair 2%nat 9].

End Example.

Section properties.
Context {K : Type} `{Countable K} {V : Type} `{!GoRuntime K}.

Implicit Types (w : World K V) (t : CacheTable K V) (it : CacheItem K V).
Implicit Types (k : K) (p r : loc) (hp : list (CacheItem K V)).
Implicit Types (ps : list (CacheItemPair K)) (acc : list loc) (d : V).

(** ** Running the monad *)

Lemma bind_Some {A B} (m : M A) (f : A → M B) w a w1 :
  m w = Some (a, w1) → (m ≫= f) w = f a w1.
Proof. intros Hm. unfold mbind, M_bind. by rewrite Hm. Qed.

Lemma bind_inv {A B} (m : M A) (f : A → M B) w b w2 :
  (m ≫= f) w = Some (b, w2) →
  ∃ a w1, m w = Some (a, w1) ∧ f a w1 = Some (b, w2).
Proof.
  unfold mbind, M_bind. destruct (m w) as [[a w1]|]; [|done]. eauto.
Qed.

Lemma call_run (f : option func) (ev : func → Event K V) w :
  call f ev w = Some ((), mkWorld (clock w) (heap w) (table w) (trace w ++ opt_ev f ev)).
Proof.
  destruct f; simpl; [done|]. rewrite app_nil_r. by destruct w.
Qed.

Lemma log_run (m : LogLine K) w :
  log m w = Some ((), mkWorld (clock w) (heap w) (table w) (trace w ++ log_ev (table w) m)).
Proof.
  unfold log, log_ev, mbind, M_bind, getTable. destruct (logger (table w)); simpl; [done|].
  rewrite app_nil_r. by destruct w.
Qed.

Lemma Delete_present k r it w :
  items (table w) !! k = Some r → heap w !! r = Some it →
  Delete k w = Some (inl r,
    mkWorld (clock w) (heap w) (with_items (delete k (items (table w))) (table w))
      (trace w ++ Delete_events (table w) k r it)).
Proof.
  intros Hk Hr. unfold Delete, lookupItem, deleteItem, modifyTable, RLock, RUnlock, Lock, Unlock.
  unfold mbind, M_bind, getTable, emit, setTable, mret, M_ret; simpl.
  rewrite Hk; simpl. rewrite call_run; simpl. unfold load; simpl. rewrite Hr.
  rewrite call_run; simpl. rewrite log_run; simpl.
  unfold Delete_events. by rewrite <- !app_assoc.
Qed.

Lemma Delete_absent k w :
  items (table w) !! k = None →
  Delete k w = Some (inr ErrKeyNotFound,
    mkWorld (clock w) (heap w) (table w) (trace w ++ [EvRLock; EvLookup k None; EvRUnlock])).
Proof.
  intros Hk. unfold Delete, lookupItem, RLock, RUnlock.
  unfold mbind, M_bind, getTable, emit, mret, M_ret; simpl.
  rewrite Hk; simpl. by rewrite <- !app_assoc.
Qed.

(** ** The loop of the expiration scan *)

Lemma scan_events_with_items now hp m t kvs :
  scan_events now hp (with_items m t) kvs = scan_events now hp t kvs.
Proof. done. Qed.

Lemma scan_events_cons now hp t kv kvs :
  scan_events now hp t (kv :: kvs) =
    scan_events now hp t [kv] ++ scan_events now hp t kvs.
Proof. unfold scan_events; simpl. by rewrite app_nil_r. Qed.

Lemma with_items_with_items m m' t :
  with_items m (with_items m' t) = with_items m t.
Proof. done. Qed.

Lemma with_items_id t : with_items (items t) t = t.
Proof. by destruct t. Qed.

Lemma expirationCheck_body_run now s k p it w :
  items (table w) !! k = Some p → heap w !! p = Some it →
  expirationCheck_body now s (k, p) w =
    Some (next_smallest now (heap w) s (k, p),
      mkWorld (clock w) (heap w)
        (with_items (scan_items now (heap w) [(k, p)] (items (table w))) (table w))
        (trace w ++ scan_events now (heap w) (table w) [(k, p)])).
Proof.
  intros Hk Hp.
  unfold expirationCheck_body, next_smallest, scan_items, scan_events, expired_at,
    expired, remaining, idle; simpl.
  unfold mbind at 1, M_bind at 1, load. rewrite Hp; simpl.
  destruct (lifeSpan it =? 0); simpl.
  { rewrite with_items_id, app_nil_r. by destruct w. }
  destruct (lifeSpan it <=? Sub now (accessedOn it)); simpl.
  { erewrite bind_Some by (eapply Delete_present; eassumption).
    unfold mret, M_ret. by rewrite app_nil_r. }
  rewrite with_items_id, app_nil_r.
  destruct ((s =? 0) || _); by destruct w.
Qed.

Lemma scan_loop_run now kvs : ∀ s w,
  NoDup kvs.*1 →
  (∀ k p, (k, p) ∈ kvs → items (table w) !! k = Some p ∧ is_Some (heap w !! p)) →
  foldM (expirationCheck_body now) s kvs w =
    Some (scan_smallest now (heap w) s kvs,
      mkWorld (clock w) (heap w)
        (with_items (scan_items now (heap w) kvs (items (table w))) (table w))
        (trace w ++ scan_events now (heap w) (table w) kvs)).
Proof.
  induction kvs as [|[k p] kvs IH]; intros s w Hnd Hin.
  { simpl. rewrite with_items_id, app_nil_r. by destruct w. }
  rewrite fmap_cons in Hnd. apply NoDup_cons in Hnd as [Hk Hnd].
  destruct (Hin k p) as [Hkp [it Hit]]; [left|].
  cbn [foldM]. erewrite bind_Some by (eapply expirationCheck_body_run; eassumption).
  rewrite IH; cbn [heap table clock trace items with_items]; [| done |].
  - rewrite with_items_with_items, scan_events_with_items, <- app_assoc.
    by rewrite <- scan_events_cons.
  - intros k' p' Hin'. destruct (Hin k' p') as [Hk' Hp']; [by right|].
    split; [|done]. unfold scan_items; cbn [foldl fst snd].
    destruct (expired_at _ _ _); [|done].
    rewrite lookup_delete_ne; [done|]. intros ->. apply Hk.
    apply list_elem_of_fmap. by exists (k', p').
Qed.

Lemma map_range_NoDup (m : gmap K loc) : NoDup (map_range m).*1.
Proof. rewrite map_range_perm. apply NoDup_fst_map_to_list. Qed.

Lemma elem_of_map_range (m : gmap K loc) k p :
  (k, p) ∈ map_range m ↔ m !! k = Some p.
Proof. rewrite map_range_perm. apply elem_of_map_to_list. Qed.

Lemma expirationCheck_run w :
  (∀ k p, items (table w) !! k = Some p → is_Some (heap w !! p)) →
  expirationCheck w = Some ((),
    mkWorld (clock w) (heap w)
      (scan_table (clock w) (heap w) (map_range (items (table w))) (table w))
      (trace w ++ expirationCheck_events (clock w) (heap w)
                    (map_range (items (table w))) (table w))).
Proof.
  intros Hv. unfold expirationCheck, Lock, Unlock.
  assert (∀ c tr, foldM (expirationCheck_body (clock w)) 0 (map_range (items (table w)))
            (mkWorld (clock w) (heap w) (with_cleanupTimer c (table w)) tr) =
          Some (scan_smallest (clock w) (heap w) 0 (map_range (items (table w))),
            mkWorld (clock w) (heap w)
              (with_items (scan_items (clock w) (heap w) (map_range (items (table w)))
                             (items (table w)))
                 (with_cleanupTimer c (table w)))
              (tr ++ scan_events (clock w) (heap w) (table w)
                       (map_range (items (table w))))))
    as Hloop.
  { intros c tr. rewrite scan_loop_run; [done|apply map_range_NoDup|].
    intros k p Hin%elem_of_map_range. split; [done|]. by eapply Hv. }
  unfold scan_table, expirationCheck_events, scan_log.
  unfold mbind, M_bind, emit, getTable, modifyTable, setTable, Now, mret, M_ret; simpl.
  destruct (cleanupTimer (table w)) as [c|] eqn:Hc; simpl.
  - destruct (0 <? cleanupInterval (table w)); rewrite log_run; simpl;
      rewrite Hloop; simpl;
      destruct (0 <? scan_smallest _ _ _ _); simpl;
      by rewrite <- !app_assoc.
  - assert (with_cleanupTimer None (table w) = table w) as Ht.
    { destruct (table w); simpl in *; by subst. }
    specialize (Hloop None). rewrite Ht in Hloop.
    destruct (0 <? cleanupInterval (table w)); rewrite log_run; simpl;
      rewrite Hloop; simpl;
      destruct (0 <? scan_smallest _ _ _ _); simpl;
      rewrite ?Ht; by rewrite <- !app_assoc.
Qed.

(** ** The entries and the interval the scan leaves *)

Lemma scan_items_cons now hp kv kvs (m : gmap K loc) :
  scan_items now hp (kv :: kvs) m =
    scan_items now hp kvs (if expired_at now hp kv.2 then delete kv.1 m else m).
Proof. done. Qed.

Lemma scan_smallest_cons now hp kv kvs s :
  scan_smallest now hp s (kv :: kvs) =
    scan_smallest now hp (next_smallest now hp s kv) kvs.
Proof. done. Qed.

Lemma scan_items_None now hp kvs : ∀ (m : gmap K loc) k,
  m !! k = None → scan_items now hp kvs m !! k = None.
Proof.
  induction kvs as [|[k' p'] kvs IH]; intros m k Hm; [done|].
  rewrite scan_items_cons; cbn [fst snd]. apply IH.
  destruct (expired_at _ _ _); [|done].
  destruct (decide (k' = k)) as [->|]; [apply lookup_delete_eq|].
  by rewrite lookup_delete_ne.
Qed.

Lemma scan_items_doomed now hp kvs : ∀ (m : gmap K loc) k p,
  (k, p) ∈ kvs → expired_at now hp p = true →
  scan_items now hp kvs m !! k = None.
Proof.
  induction kvs as [|[k' p'] kvs IH]; intros m k p Hin He.
  { by apply elem_of_nil in Hin. }
  rewrite scan_items_cons; cbn [fst snd].
  apply elem_of_cons in Hin as [[= <- <-]|Hin].
  - rewrite He. apply scan_items_None, lookup_delete_eq.
  - by eapply IH.
Qed.

Lemma scan_items_kept now hp kvs : ∀ (m : gmap K loc) k,
  (∀ p, (k, p) ∈ kvs → expired_at now hp p = false) →
  scan_items now hp kvs m !! k = m !! k.
Proof.
  induction kvs as [|[k' p'] kvs IH]; intros m k Hk; [done|].
  rewrite scan_items_cons; cbn [fst snd]. rewrite IH.
  - destruct (expired_at now hp p') eqn:He; [|done].
    apply lookup_delete_ne. intros ->. specialize (Hk p'). rewrite He in Hk.
    by discriminate Hk; left.
  - intros p Hin. apply Hk. by right.
Qed.

Lemma scan_items_range now hp (m : gmap K loc) k :
  scan_items now hp (map_range m) m !! k =
    p ← m !! k; if expired_at now hp p then None else Some p.
Proof.
  destruct (m !! k) as [p|] eqn:Hk; simpl.
  - destruct (expired_at now hp p) eqn:He.
    + eapply scan_items_doomed; [|done]. by apply elem_of_map_range.
    + rewrite scan_items_kept; [done|].
      intros p' Hin%elem_of_map_range. by simplify_eq.
  - by apply scan_items_None.
Qed.

Lemma wrap64_int64 z : int64 z → wrap64 z = z.
Proof.
  unfold int64, wrap64, min_int64, max_int64. intros ?.
  rewrite Z.mod_small; lia.
Qed.

Lemma idle_nonneg now it : accessedOn it ≤ now → 0 ≤ idle now it.
Proof. unfold idle, Sub, min_int64, max_int64. lia. Qed.

(** An item the scan keeps and counts has a positive remaining time, and
    the [int64] subtraction that computes it does not overflow. *)
Lemma remaining_survivor now it :
  item_ok now it → lifeSpan it ≠ 0 → expired now it = false →
  0 < remaining now it ∧ wrap64 (remaining now it) = remaining now it ∧
  0 < lifeSpan it.
Proof.
  intros (_ & Ha & Hl) Hz He. unfold expired in He.
  apply idle_nonneg in Ha. unfold remaining.
  destruct (Z.eqb_spec (lifeSpan it) 0); [done|]. simpl in He.
  apply Z.leb_gt in He. split; [lia|]. split; [|lia].
  apply wrap64_int64. unfold int64, min_int64, max_int64 in *. lia.
Qed.

Lemma next_smallest_expired now hp s k p it :
  hp !! p = Some it → lifeSpan it = 0 ∨ expired now it = true →
  next_smallest now hp s (k, p) = s.
Proof.
  intros Hp He. unfold next_smallest, expired in *; simpl. rewrite Hp.
  destruct (Z.eqb_spec (lifeSpan it) 0); simpl in *; [done|].
  destruct He as [?| ->]; done.
Qed.

Lemma next_smallest_survivor now hp s k p it :
  hp !! p = Some it → item_ok now it → lifeSpan it ≠ 0 → expired now it = false →
  next_smallest now hp s (k, p) =
    if (s =? 0) || (remaining now it <? s) then remaining now it else s.
Proof.
  intros Hp Hok Hz He. destruct (remaining_survivor now it) as (_ & Hw & _); [done..|].
  unfold next_smallest; simpl. rewrite Hp, Hw. unfold expired in He.
  destruct (Z.eqb_spec (lifeSpan it) 0); simpl in *; [done|]. by rewrite He.
Qed.

Lemma scan_smallest_spec now hp kvs : ∀ s,
  Forall (item_ok now) hp → 0 ≤ s →
  let r := scan_smallest now hp s kvs in
  (r = s ∨ ∃ k p it, (k, p) ∈ kvs ∧ hp !! p = Some it ∧ lifeSpan it ≠ 0 ∧
                     expired now it = false ∧ r = remaining now it) ∧
  (0 < s → 0 < r ≤ s) ∧
  (∀ k p it, (k, p) ∈ kvs → hp !! p = Some it → lifeSpan it ≠ 0 →
             expired now it = false → 0 < r ≤ remaining now it).
Proof.
  induction kvs as [|[k p] kvs IH]; intros s Hok Hs; cbv zeta.
  { split; [by left|]. split; [done|]. intros k p it Hin. by apply elem_of_nil in Hin. }
  rewrite scan_smallest_cons.
  set (s1 := next_smallest now hp s (k, p)).
  assert ((s1 = s ∧ (∀ it, hp !! p = Some it → lifeSpan it = 0 ∨ expired now it = true)) ∨
          (∃ it, hp !! p = Some it ∧ lifeSpan it ≠ 0 ∧ expired now it = false ∧
                 0 < s1 ∧ s1 ≤ remaining now it ∧ (0 < s → s1 ≤ s) ∧
                 (s1 = s ∨ s1 = remaining now it))) as Hs1.
  { destruct (hp !! p) as [it|] eqn:Hp.
    - destruct (decide (lifeSpan it = 0)) as [Hz|Hz].
      { left. split; [by eapply next_smallest_expired; eauto|]. intros ? [= <-]. by left. }
      destruct (expired now it) eqn:He.
      { left. split; [by eapply next_smallest_expired; eauto|]. intros ? [= <-]. by right. }
      right. exists it. assert (item_ok now it) as Hit.
      { eapply Forall_forall; [done|]. by eapply list_elem_of_lookup_2. }
      destruct (remaining_survivor now it) as (Hr & _ & _); [done..|].
      subst s1. erewrite next_smallest_survivor by done.
      destruct (Z.eqb_spec s 0); simpl; [subst; repeat split; auto; lia|].
      destruct (Z.ltb_spec (remaining now it) s); repeat split; auto; lia.
    - left. split; [|done]. subst s1. unfold next_smallest; simpl. by rewrite Hp. }
  assert (0 ≤ s1) as Hs1' by (destruct Hs1 as [[-> _]|(? & ? & ? & ? & ? & _)]; lia).
  destruct (IH s1 Hok Hs1') as (Hatt & Hle & Hlow). split; [|split].
  - destruct Hatt as [Hr|(k' & p' & it' & Hin & ?)].
    + rewrite Hr. destruct Hs1 as [[-> _]|(it & ? & ? & ? & _ & _ & _ & [->| ->])];
        [by left|by left|].
      right. exists k, p, it. repeat split; auto. by left.
    + right. exists k', p', it'. split; [by right|done].
  - intros Hpos. destruct Hs1 as [[Heq _]|(it & ? & ? & ? & ? & ? & Hb & _)].
    + rewrite Heq in *. auto.
    + specialize (Hb Hpos). assert (0 < s1) as Hpos1 by done. specialize (Hle Hpos1). lia.
  - intros k' p' it' Hin Hp' Hz' He'.
    apply elem_of_cons in Hin as [[= -> ->]|Hin]; [|by eapply Hlow].
    destruct Hs1 as [[_ Hex]|(it & Hp & _ & _ & Hpos & Hrem & _)].
    + destruct (Hex it' Hp') as [?|?]; congruence.
    + simplify_eq. specialize (Hle Hpos). lia.
Qed.

Lemma scan_table_items now hp kvs t :
  items (scan_table now hp kvs t) = scan_items now hp kvs (items t).
Proof. unfold scan_table. by destruct (0 <? _). Qed.

Lemma scan_table_cleanupInterval now hp kvs t :
  cleanupInterval (scan_table now hp kvs t) = scan_smallest now hp 0 kvs.
Proof. unfold scan_table. by destruct (0 <? _). Qed.

Lemma scan_events_infix now hp t kvs k p it :
  (k, p) ∈ kvs → hp !! p = Some it → expired now it = true →
  ∃ pre post, scan_events now hp t kvs = pre ++ Delete_events t k p it ++ post.
Proof.
  intros (l1 & l2 & ->)%list_elem_of_split Hp He.
  exists (scan_events now hp t l1), (scan_events now hp t l2).
  unfold scan_events. rewrite flat_map_app. simpl. by rewrite Hp, He.
Qed.

Lemma expired_true now it :
  expired now it = true ↔ lifeSpan it ≠ 0 ∧ lifeSpan it ≤ idle now it.
Proof.
  unfold expired. destruct (Z.eqb_spec (lifeSpan it) 0), (Z.leb_spec (lifeSpan it) (idle now it));
    simpl; intuition (done || lia).
Qed.

Lemma expired_false now it :
  expired now it = false ↔ lifeSpan it = 0 ∨ idle now it < lifeSpan it.
Proof.
  unfold expired. destruct (Z.eqb_spec (lifeSpan it) 0), (Z.leb_spec (lifeSpan it) (idle now it));
    simpl; intuition (done || lia).
Qed.

Lemma Delete_events_touches t k r it k' p' (e : Event K V) :
  e ∈ Delete_events t k r it → touches k' p' e → k' = k ∨ p' = r.
Proof.
  unfold Delete_events, opt_ev, log_ev.
  destruct (aboutToDeleteItem t), (aboutToExpire it), (logger t); cbn;
    rewrite ?elem_of_cons, elem_of_nil; intros Hin;
    repeat (destruct Hin as [->|Hin]; [cbn; auto; done|]); done.
Qed.

Lemma scan_events_touches now hp t (m : gmap K loc) k p it (e : Event K V) :
  e ∈ scan_events now hp t (map_range m) → touches k p e →
  m !! k = Some p → hp !! p = Some it → expired now it = true.
Proof.
  unfold scan_events. intros ([k' p'] & Hin & He)%list_elem_of_In%in_flat_map Ht Hk Hp.
  apply list_elem_of_In, elem_of_map_range in Hin. apply list_elem_of_In in He.
  cbn [fst snd] in He.
  destruct (hp !! p') as [it'|] eqn:Hp'; [|by apply elem_of_nil in He].
  destruct (expired now it') eqn:Hex; [|by apply elem_of_nil in He].
  destruct (Delete_events_touches _ _ _ _ _ _ _ He Ht) as [->| ->]; by simplify_eq.
Qed.

Lemma expirationCheck_events_touches now hp t k p it (e : Event K V) :
  e ∈ expirationCheck_events now hp (map_range (items t)) t → touches k p e →
  items t !! k = Some p → hp !! p = Some it → expired now it = true.
Proof.
  unfold expirationCheck_events. rewrite !elem_of_app.
  intros [He|[He|[He|[He|He]]]] Ht Hk Hp.
  - apply list_elem_of_singleton in He as ->. done.
  - unfold log_ev, scan_log in He. destruct (logger t); [|by apply elem_of_nil in He].
    apply list_elem_of_singleton in He as ->.
    by destruct (0 <? cleanupInterval t).
  - apply list_elem_of_singleton in He as ->. done.
  - by eapply scan_events_touches.
  - apply elem_of_cons in He as [->|He]; [done|].
    apply list_elem_of_singleton in He as ->. done.
Qed.

(** C1. One run of the expiration scan over a well-formed world returns,
    leaves the item objects as they are, and
    - removes every entry with a positive life span whose idle time has
      reached it, appending to the trace exactly the events of [Delete] on
      that key (table callback, then the entry's callback, then the
      removal);
    - keeps every entry with life span 0, and every entry whose idle time
      is below its positive life span, and none of its events concerns
      such an entry or its item object;
    - sets [cleanupInterval] to the least remaining time of the entries
      with a positive life span that are left, and to 0 when none is
      left. *)
Theorem expirationCheck_spec w :
  wf w →
  ∃ w', expirationCheck w = Some ((), w') ∧
    clock w' = clock w ∧ heap w' = heap w ∧
    trace w' = trace w ++ expirationCheck_events (clock w) (heap w)
                            (map_range (items (table w))) (table w) ∧
    (∀ k p it, items (table w) !! k = Some p → heap w !! p = Some it →
       (0 < lifeSpan it → lifeSpan it ≤ idle (clock w) it →
          items (table w') !! k = None ∧
          ∃ pre post,
            trace w' = trace w ++ pre ++ Delete_events (table w) k p it ++ post) ∧
       (0 < lifeSpan it → idle (clock w) it < lifeSpan it →
          items (table w') !! k = Some p) ∧
       (lifeSpan it = 0 → items (table w') !! k = Some p) ∧
       (lifeSpan it = 0 ∨ idle (clock w) it < lifeSpan it →
          ∀ e, e ∈ expirationCheck_events (clock w) (heap w)
                     (map_range (items (table w))) (table w) →
               ¬ touches k p e)) ∧
    (∀ k, items (table w) !! k = None → items (table w') !! k = None) ∧
    (∀ k it, mortal w' k it → cleanupInterval (table w') ≤ remaining (clock w) it) ∧
    ((∃ k it, mortal w' k it) →
       ∃ k it, mortal w' k it ∧ cleanupInterval (table w') = remaining (clock w) it) ∧
    ((∀ k it, ¬ mortal w' k it) → cleanupInterval (table w') = 0).
Proof.
  intros (Hv & Hok & _). eexists. split; [by apply expirationCheck_run|].
  cbn [clock heap trace table]. rewrite scan_table_items, scan_table_cleanupInterval.
  set (now := clock w). set (kvs := map_range (items (table w))).
  assert (∀ k p it, items (table w) !! k = Some p → heap w !! p = Some it →
            expired now it = false →
            scan_items now (heap w) kvs (items (table w)) !! k = Some p) as Hkeep.
  { intros k p it Hk Hp He. unfold kvs. rewrite scan_items_range, Hk; simpl.
    unfold expired_at. by rewrite Hp, He. }
  assert (∀ k it, mortal (mkWorld now (heap w)
              (scan_table now (heap w) kvs (table w)) (trace w ++
                 expirationCheck_events now (heap w) kvs (table w))) k it →
            ∃ p, (k, p) ∈ kvs ∧ heap w !! p = Some it ∧ lifeSpan it ≠ 0 ∧
                 expired now it = false) as Hmortal.
  { intros k it (p & Hk & Hp & Hl). cbn [table heap] in Hk, Hp.
    rewrite scan_table_items in Hk. unfold kvs in Hk.
    rewrite scan_items_range in Hk.
    destruct (items (table w) !! k) as [p'|] eqn:Hk'; [|done]. simpl in Hk.
    unfold expired_at in Hk. destruct (heap w !! p') as [it'|] eqn:Hp'.
    - destruct (expired now it') eqn:He; [done|]. simplify_eq.
      exists p. split; [by apply elem_of_map_range|]. repeat split; auto. lia.
    - simplify_eq. }
  destruct (scan_smallest_spec now (heap w) kvs 0 Hok) as (Hatt & _ & Hlow); [done|].
  do 3 (split; [done|]). split; [|split; [|split; [|split]]].
  - intros k p it Hk Hp. split; [|split; [|split]].
    4:{ intros Hkept%expired_false e He Ht.
        pose proof (expirationCheck_events_touches now (heap w) (table w) k p it e
                      He Ht Hk Hp) as Hexp.
        congruence. }
    + intros Hl Hi. assert (expired now it = true) as He by (apply expired_true; lia).
      split.
      * unfold kvs. rewrite scan_items_range, Hk; simpl.
        unfold expired_at. by rewrite Hp, He.
      * destruct (scan_events_infix now (heap w) (table w) kvs k p it)
          as (pre & post & Hev); [by apply elem_of_map_range|done..|].
        unfold expirationCheck_events. rewrite Hev.
        exists ([EvLock] ++ log_ev (table w) (scan_log (table w)) ++ [EvUnlock] ++ pre),
          (post ++ [EvLock; EvUnlock]).
        by rewrite <- !app_assoc.
    + intros Hl Hi. eapply Hkeep; [done..|]. apply expired_false. by right.
    + intros Hl. eapply Hkeep; [done..|]. apply expired_false. by left.
  - intros k Hk. by apply scan_items_None.
  - intros k it (p & Hin & Hp & Hz & He)%Hmortal.
    by destruct (Hlow k p it) as [_ ?].
  - intros (k & it & Hm). pose proof Hm as (p & Hin & Hp & Hz & He)%Hmortal.
    destruct (Hlow k p it) as [Hpos _]; [done..|].
    destruct Hatt as [Hr|(k' & p' & it' & Hin' & Hp' & Hz' & He' & Hr)]; [lia|].
    exists k', it'. split; [|done]. exists p'. cbn [table heap].
    rewrite scan_table_items.
    split; [|split; [done|]].
    + eapply Hkeep; [|done..]. by apply elem_of_map_range.
    + destruct (remaining_survivor now it') as (_ & _ & ?); [|done..].
      eapply Forall_forall; [done|]. by eapply list_elem_of_lookup_2.
  - intros Hnone.
    destruct Hatt as [Hr|(k' & p' & it' & Hin' & Hp' & Hz' & He' & Hr)]; [done|].
    exfalso. apply (Hnone k' it'). exists p'. cbn [table heap].
    rewrite scan_table_items.
    split; [|split; [done|]].
    + eapply Hkeep; [|done..]. by apply elem_of_map_range.
    + destruct (remaining_survivor now it') as (_ & _ & ?); [|done..].
      eapply Forall_forall; [done|]. by eapply list_elem_of_lookup_2.
Qed.

(** ** Add and NotFoundAdd *)

Ltac mstep :=
  erewrite bind_Some by (first [apply log_run | apply call_run | reflexivity]);
  cbv beta iota zeta; cbn [clock heap table trace].

Lemma Add_run k l d w :
  Add k l d w =
    ((if scan_due l (table w) then expirationCheck else mret ());;
     mret (length (heap w))) (inserted [EvLock] k l d w).
Proof.
  unfold Add, storeItem, modifyTable, Lock, Unlock.
  repeat mstep.
  unfold scan_due, inserted. cbn [cleanupInterval with_items].
  f_equal. f_equal. by rewrite <- !app_assoc.
Qed.

Lemma NotFoundAdd_present k l d p w :
  items (table w) !! k = Some p →
  NotFoundAdd k l d w = Some (false,
    mkWorld (clock w) (heap w) (table w)
      (trace w ++ [EvLock; EvLookup k (Some p); EvUnlock])).
Proof.
  intros Hk. unfold NotFoundAdd, lookupItem, Lock, Unlock.
  repeat mstep. rewrite Hk; cbv beta iota. repeat mstep. unfold mret, M_ret.
  by rewrite <- !app_assoc.
Qed.

Lemma NotFoundAdd_absent k l d w :
  items (table w) !! k = None →
  NotFoundAdd k l d w =
    ((if scan_due l (table w) then expirationCheck else mret ());;
     mret true) (inserted [EvLock; EvLookup k None] k l d w).
Proof.
  intros Hk. unfold NotFoundAdd, lookupItem, storeItem, modifyTable, Lock, Unlock.
  repeat mstep. rewrite Hk; cbv beta iota. repeat mstep.
  unfold scan_due, inserted. cbn [cleanupInterval with_items].
  f_equal. f_equal. by rewrite <- !app_assoc.
Qed.

(** ** The other calls *)

Lemma KeepAlive_run p it w :
  heap w !! p = Some it →
  KeepAlive p w = Some ((),
    mkWorld (clock w) (<[p := kept_alive (clock w) it]> (heap w)) (table w) (trace w)).
Proof.
  intros Hp. unfold KeepAlive.
  erewrite bind_Some by (unfold load; by rewrite Hp). mstep.
  unfold store. by rewrite Hp.
Qed.

Lemma SetAboutToExpireCallback_run p f it w :
  heap w !! p = Some it →
  SetAboutToExpireCallback p f w = Some ((),
    mkWorld (clock w)
      (<[p := mkCacheItem (key it) (data it) (lifeSpan it) (createdOn it)
                (accessedOn it) (accessCount it) f]> (heap w))
      (table w) (trace w)).
Proof.
  intros Hp. unfold SetAboutToExpireCallback.
  erewrite bind_Some by (unfold load; by rewrite Hp).
  unfold store. by rewrite Hp.
Qed.

Lemma Flush_run w :
  Flush w = Some ((),
    mkWorld (clock w) (heap w) (flushed (table w))
      (trace w ++ [EvLock] ++ log_ev (table w) (LogFlushing (name (table w)))
         ++ [EvClear; EvUnlock])).
Proof.
  unfold Flush, modifyTable, Lock, Unlock, flushed. repeat mstep.
  cbn [cleanupTimer with_cleanupInterval with_items].
  destruct (cleanupTimer (table w)) as [c|] eqn:Hc.
  - repeat mstep. unfold emit. cbn [clock heap table trace fmap option_fmap option_map].
    by rewrite <- !app_assoc.
  - repeat mstep. unfold emit. cbn [clock heap table trace fmap option_fmap option_map].
    rewrite <- !app_assoc. do 3 f_equal.
    unfold with_cleanupTimer, with_cleanupInterval, with_items; simpl. by rewrite Hc.
Qed.

Lemma Exists_run k w :
  Exists k w = Some (bool_decide (is_Some (items (table w) !! k)),
    mkWorld (clock w) (heap w) (table w)
      (trace w ++ [EvRLock; EvLookup k (items (table w) !! k); EvRUnlock])).
Proof.
  unfold Exists, lookupItem, RLock, RUnlock. repeat mstep. unfold mret, M_ret.
  by rewrite <- !app_assoc.
Qed.

Lemma Count_run w :
  Count w = Some (size (items (table w)),
    mkWorld (clock w) (heap w) (table w) (trace w ++ [EvRLock; EvRUnlock])).
Proof.
  unfold Count, RLock, RUnlock. repeat mstep. unfold mret, M_ret.
  by rewrite <- !app_assoc.
Qed.

Lemma forM_emit (evs : list (Event K V)) : ∀ w,
  forM emit evs w = Some ((), mkWorld (clock w) (heap w) (table w) (trace w ++ evs)).
Proof.
  induction evs as [|e evs IH]; intros w; simpl.
  { rewrite app_nil_r. by destruct w. }
  mstep. rewrite IH; simpl. by rewrite <- app_assoc.
Qed.

Lemma forM_fmap {A B} (g : A → B) (f : B → M (K:=K) (V:=V) unit) (l : list A) :
  forM (λ a, f (g a)) l = forM f (g <$> l).
Proof. induction l as [|a l IH]; simpl; [done|]. by rewrite IH. Qed.

Lemma Foreach_run f w :
  Foreach f w = Some ((),
    mkWorld (clock w) (heap w) (table w)
      (trace w ++ [EvRLock]
         ++ ((λ kv, EvTrans f kv.1 kv.2) <$> map_range (items (table w)))
         ++ [EvRUnlock])).
Proof.
  unfold Foreach, RLock, RUnlock. repeat mstep.
  rewrite (forM_fmap (λ kv, EvTrans f kv.1 kv.2) emit).
  erewrite bind_Some by apply forM_emit. unfold emit; simpl.
  by rewrite <- !app_assoc.
Qed.

Lemma Value_present k args r it w :
  items (table w) !! k = Some r → heap w !! r = Some it →
  Value k args w = Some (inl r,
    mkWorld (clock w) (<[r := kept_alive (clock w) it]> (heap w)) (table w)
      (trace w ++ [EvRLock; EvLookup k (Some r); EvRUnlock])).
Proof.
  intros Hk Hr. unfold Value, lookupItem, RLock, RUnlock. repeat mstep.
  rewrite Hk; cbv beta iota. erewrite bind_Some by (by apply KeepAlive_run).
  unfold mret, M_ret; simpl. by rewrite <- !app_assoc.
Qed.

Lemma Value_absent_no_loader k args w :
  items (table w) !! k = None → loadData (table w) = None →
  Value k args w = Some (inr ErrKeyNotFound,
    mkWorld (clock w) (heap w) (table w)
      (trace w ++ [EvRLock; EvLookup k None; EvRUnlock])).
Proof.
  intros Hk Hl. unfold Value, lookupItem, RLock, RUnlock. repeat mstep.
  rewrite Hk, Hl; cbv beta iota. unfold mret, M_ret. by rewrite <- !app_assoc.
Qed.

Lemma Value_absent_not_loadable k args f w :
  items (table w) !! k = None → loadData (table w) = Some f →
  f (clock w) k args = None →
  Value k args w = Some (inr ErrKeyNotFoundOrLoadable,
    mkWorld (clock w) (heap w) (table w)
      (trace w ++ [EvRLock; EvLookup k None; EvRUnlock; EvLoadData k args])).
Proof.
  intros Hk Hl Hf. unfold Value, lookupItem, RLock, RUnlock. repeat mstep.
  rewrite Hk, Hl; cbv beta iota. repeat mstep. rewrite Hf; cbv beta iota. unfold mret, M_ret.
  by rewrite <- !app_assoc.
Qed.

Lemma Value_absent_loaded k args f e w :
  items (table w) !! k = None → loadData (table w) = Some f →
  f (clock w) k args = Some e →
  Value k args w =
    (Add k (lifeSpan e) (data e);; mret (inl (length (heap w))))
      (mkWorld (clock w) (heap w ++ [e]) (table w)
         (trace w ++ [EvRLock; EvLookup k None; EvRUnlock; EvLoadData k args])).
Proof.
  intros Hk Hl Hf. unfold Value, lookupItem, RLock, RUnlock. repeat mstep.
  rewrite Hk, Hl; cbv beta iota. repeat mstep. rewrite Hf; cbv beta iota. repeat mstep.
  erewrite bind_Some.
  2:{ unfold load; simpl. rewrite lookup_app_r, Nat.sub_diag by done. done. }
  cbv beta. f_equal. f_equal. by rewrite <- !app_assoc.
Qed.

(** ** MostAccessed *)

Lemma MostAccessed_snapshot_run (kvs : list (K * loc)) : ∀ w,
  (∀ kv, kv ∈ kvs → is_Some (heap w !! kv.2)) →
  mapM' (λ kv, it ← load kv.2; mret (mkCacheItemPair kv.1 (accessCount it))) kvs w =
    Some (pair_of (heap w) <$> kvs, w).
Proof.
  induction kvs as [|kv kvs IH]; intros w Hv; [done|].
  destruct (Hv kv) as [it Hit]; [by left|].
  cbn [mapM']. erewrite bind_Some.
  2:{ erewrite bind_Some by (unfold load; by rewrite Hit). done. }
  cbv beta. erewrite bind_Some by (apply IH; intros; apply Hv; by right).
  rewrite fmap_cons. unfold pair_of at 2. by rewrite Hit.
Qed.

Lemma MostAccessed_loop_run count ps : ∀ c acc w,
  MostAccessed_loop count c ps acc w =
    Some (loop_result (items (table w)) count c ps acc,
      mkWorld (clock w) (heap w) (table w)
        (trace w ++ loop_events (items (table w)) count c ps)).
Proof.
  induction ps as [|v ps IH]; intros c acc w; cbn [MostAccessed_loop loop_result loop_events].
  { unfold mret, M_ret. rewrite app_nil_r. by destruct w. }
  destruct (count <=? c).
  { unfold mret, M_ret. rewrite app_nil_r. by destruct w. }
  unfold lookupItem. mstep. rewrite IH. cbn [clock heap table trace].
  by rewrite <- app_assoc.
Qed.

Lemma MostAccessed_run count w :
  (∀ k p, items (table w) !! k = Some p → is_Some (heap w !! p)) →
  MostAccessed count w =
    let ps := sort_Sort (pair_of (heap w) <$> map_range (items (table w))) in
    Some (loop_result (items (table w)) count 0 ps [],
      mkWorld (clock w) (heap w) (table w)
        (trace w ++ [EvRLock] ++ loop_events (items (table w)) count 0 ps
           ++ [EvRUnlock])).
Proof.
  intros Hv. unfold MostAccessed, RLock, RUnlock. repeat mstep.
  erewrite bind_Some.
  2:{ apply MostAccessed_snapshot_run. intros [k p] Hin%elem_of_map_range. by eapply Hv. }
  cbv beta. erewrite bind_Some by apply MostAccessed_loop_run.
  repeat mstep. unfold mret, M_ret; simpl. by rewrite <- !app_assoc.
Qed.

Lemma loop_result_take (m : gmap K loc) count ps : ∀ c acc,
  0 ≤ c → count ≤ max_int64 →
  loop_result m count c ps acc =
    acc ++ omap (λ v, m !! Key v) (take (Z.to_nat (count - c)) ps).
Proof.
  induction ps as [|v ps IH]; intros c acc Hc Hcount; cbn [loop_result].
  { by rewrite take_nil, app_nil_r. }
  destruct (Z.leb_spec count c).
  { replace (Z.to_nat (count - c)) with 0%nat by lia. by rewrite app_nil_r. }
  rewrite wrap64_int64 by (unfold int64, min_int64, max_int64 in *; lia).
  rewrite IH by lia.
  replace (Z.to_nat (count - c)) with (S (Z.to_nat (count - (c + 1)))) by lia.
  cbn [take omap list_omap]. destruct (m !! Key v); [|done].
  by rewrite <- app_assoc.
Qed.

Lemma omap_length_le {A B} (f : A → option B) (l : list A) :
  (length (omap f l) ≤ length l)%nat.
Proof.
  induction l as [|a l IH]; [done|]. cbn. destruct (f a); simpl; lia.
Qed.

Lemma StronglySorted_take_prefix {A} (R : relation A) n (l : list A) :
  StronglySorted R l → StronglySorted R (take n l).
Proof.
  intros Hs. rewrite <- (take_drop n l) in Hs. by eapply StronglySorted_app_1_l.
Qed.

Lemma omap_pair_of (m : gmap K loc) hp (kvs : list (K * loc)) :
  (∀ k p, (k, p) ∈ kvs → m !! k = Some p) →
  omap (λ v, m !! Key v) (pair_of hp <$> kvs) = kvs.*2.
Proof.
  induction kvs as [|[k p] kvs IH]; intros Hin; [done|].
  cbn. rewrite (Hin k p) by left. f_equal. apply IH. intros. apply Hin. by right.
Qed.

Lemma omap_sorted (m : gmap K loc) hp (ps : list (CacheItemPair K)) :
  Forall (λ v, ∃ p, m !! Key v = Some p ∧
               AccessCount v = from_option accessCount 0 (hp !! p)) ps →
  StronglySorted (λ a b, Less b a = false) ps →
  StronglySorted (hits_ge hp) (omap (λ v, m !! Key v) ps).
Proof.
  induction 1 as [|v ps (p & Hp & Hc) Hall IH]; intros Hs; cbn; [constructor|].
  apply StronglySorted_inv in Hs as [Hs Hv]. rewrite Hp. constructor; [by apply IH|].
  apply Forall_forall. intros q Hq ip iq Hip Hiq.
  apply list_elem_of_omap in Hq as (b & Hb & Hq).
  rewrite Forall_forall in Hv, Hall. specialize (Hv b Hb).
  destruct (Hall b Hb) as (q' & Hq' & Hc'). simplify_eq.
  unfold Less in Hv. apply Z.ltb_ge in Hv.
  rewrite Hc, Hc', Hip, Hiq in Hv. done.
Qed.

(** ** Calls return, and keep worlds well formed *)

Lemma wf_same w w' :
  clock w' = clock w → heap w' = heap w →
  items (table w') = items (table w) → loadData (table w') = loadData (table w) →
  wf w → wf w'.
Proof.
  unfold wf, valid, keyed. intros -> -> -> ->. done.
Qed.

Lemma item_ok_mono now now' it : now ≤ now' → item_ok now it → item_ok now' it.
Proof. unfold item_ok. intros ? (? & ? & ? & ?). split; [done|]. split; [lia|done]. Qed.

Lemma new_item_ok now k l d : int64 l → item_ok now (new_item now k l d).
Proof.
  unfold item_ok; simpl. intros ?. split; [done|]. split; [lia|]. split; [done|].
  unfold int64, min_int64, max_int64. lia.
Qed.

Lemma new_item_not_expired now k l d :
  0 < l → expired now (new_item now k l d) = false.
Proof.
  intros Hl. apply expired_false. right. unfold idle, Sub, min_int64, max_int64; simpl. lia.
Qed.

Lemma valid_inserted pre k l d w : valid w → valid (inserted pre k l d w).
Proof.
  intros Hv k' p. unfold inserted; cbn [table heap items with_items].
  rewrite lookup_insert. case_decide.
  - intros [= <-]. rewrite lookup_app_r, Nat.sub_diag by done. by eexists.
  - intros [it Hit]%Hv. exists it. by apply lookup_app_l_Some.
Qed.

Lemma keyed_inserted pre k l d w : valid w → keyed w → keyed (inserted pre k l d w).
Proof.
  intros Hv Hky k' p it. unfold inserted; cbn [table heap items with_items].
  rewrite lookup_insert. case_decide.
  - intros [= <-]. rewrite lookup_app_r, Nat.sub_diag by done. by intros [= <-].
  - intros Hk' Hp. destruct (Hv k' p Hk') as [it' Hit'].
    rewrite (lookup_app_l_Some _ _ _ _ Hit') in Hp. simplify_eq. by eapply Hky.
Qed.

Lemma wf_inserted pre k l d w : int64 l → wf w → wf (inserted pre k l d w).
Proof.
  intros Hl (Hv & Hok & Hld & Hky). split; [by apply valid_inserted|].
  split; [|split; [done|by apply keyed_inserted]].
  unfold inserted; cbn [heap clock]. apply Forall_app. split; [done|].
  apply Forall_singleton. by apply new_item_ok.
Qed.

Lemma valid_alloc e w :
  valid w → valid (mkWorld (clock w) (heap w ++ [e]) (table w) (trace w)).
Proof.
  intros Hv k p [it Hit]%Hv. exists it. by apply lookup_app_l_Some.
Qed.

Lemma valid_update p it w :
  valid w → valid (mkWorld (clock w) (<[p := it]> (heap w)) (table w) (trace w)).
Proof.
  intros Hv k q Hq%Hv. cbn [heap]. apply lookup_lt_is_Some.
  rewrite length_insert. by apply lookup_lt_is_Some.
Qed.

Lemma scan_frame w :
  valid w →
  ∃ w', expirationCheck w = Some ((), w') ∧
    clock w' = clock w ∧ heap w' = heap w ∧
    loadData (table w') = loadData (table w) ∧
    (∀ k, items (table w') !! k =
          p ← items (table w) !! k;
          if expired_at (clock w) (heap w) p then None else Some p) ∧
    trace w' = trace w ++ expirationCheck_events (clock w) (heap w)
                            (map_range (items (table w))) (table w).
Proof.
  intros Hv. eexists. split; [by apply expirationCheck_run|].
  cbn [clock heap table trace]. repeat split.
  - unfold scan_table. by destruct (0 <? _).
  - intros k. by rewrite scan_table_items, scan_items_range.
Qed.

Lemma scan_wf w w' : wf w → expirationCheck w = Some ((), w') → wf w'.
Proof.
  intros (Hv & Hok & Hld & Hky) Hrun.
  destruct (scan_frame w Hv) as (w1 & Hrun' & Hc & Hh & Hl & Hi & _).
  simplify_eq.
  assert (∀ k p, items (table w') !! k = Some p → items (table w) !! k = Some p) as Hsub.
  { intros k p. rewrite Hi. destruct (items (table w) !! k) as [q|] eqn:Hq; [|done].
    simpl. by destruct (expired_at _ _ _). }
  unfold wf, valid, keyed. rewrite Hc, Hh, Hl. split; [|split; [done|split; [done|]]].
  - intros k p Hk%Hsub. by eapply Hv.
  - intros k p it Hk%Hsub. by apply Hky.
Qed.

(** [Add] returns a pointer to a new object holding the item
    [CreateCacheItem] made; the key is bound to it, and the scan [Add] may
    run removes only other, expired entries. *)
Lemma Add_frame k l d w :
  valid w →
  ∃ w', Add k l d w = Some (length (heap w), w') ∧
    clock w' = clock w ∧
    heap w' = heap w ++ [new_item (clock w) k l d] ∧
    loadData (table w') = loadData (table w) ∧
    items (table w') !! k = Some (length (heap w)) ∧
    (∀ k' p, k' ≠ k → items (table w') !! k' = Some p →
             items (table w) !! k' = Some p).
Proof.
  intros Hv. rewrite Add_run. pose proof (valid_inserted [EvLock] k l d w Hv) as Hv1.
  destruct (scan_due l (table w)) eqn:Hdue.
  - destruct (scan_frame _ Hv1) as (w' & Hrun & Hc & Hh & Hl & Hi & _).
    exists w'. erewrite bind_Some by done. split; [done|].
    rewrite Hc, Hh, Hl. do 3 (split; [done|]).
    unfold inserted in Hi; cbn [table heap clock items with_items] in Hi.
    split.
    + rewrite Hi, lookup_insert_eq; simpl. unfold expired_at.
      rewrite lookup_app_r, Nat.sub_diag by done; simpl.
      rewrite new_item_not_expired; [done|].
      unfold scan_due in Hdue. apply andb_true_iff in Hdue as [?%Z.ltb_lt _]. done.
    + intros k' p Hne. rewrite Hi, lookup_insert_ne by done.
      destruct (items (table w) !! k'); [|done]. simpl.
      destruct (expired_at _ _ _); [done|]. done.
  - exists (inserted [EvLock] k l d w). erewrite bind_Some by done. split; [done|].
    unfold inserted; cbn [clock heap table items with_items loadData].
    do 3 (split; [done|]). split; [by rewrite lookup_insert_eq|].
    intros k' p Hne. by rewrite lookup_insert_ne.
Qed.

Lemma Add_wf k l d w p w' : int64 l → wf w → Add k l d w = Some (p, w') → wf w'.
Proof.
  intros Hl Hwf. rewrite Add_run. pose proof (wf_inserted [EvLock] k l d w Hl Hwf) as H1.
  destruct (scan_due l (table w)).
  - intros ([] & w1 & Hrun & [= <- <-])%bind_inv. by eapply scan_wf.
  - intros ([] & w1 & [= <-] & [= <- <-])%bind_inv. done.
Qed.

Lemma NotFoundAdd_total k l d w :
  valid w → ∃ b w', NotFoundAdd k l d w = Some (b, w').
Proof.
  intros Hv. destruct (items (table w) !! k) as [p|] eqn:Hk.
  - erewrite NotFoundAdd_present by done. eauto.
  - rewrite NotFoundAdd_absent by done.
    pose proof (valid_inserted [EvLock; EvLookup k None] k l d w Hv) as Hv1.
    destruct (scan_due l (table w)).
    + destruct (scan_frame _ Hv1) as (w' & Hrun & _).
      erewrite bind_Some by done. unfold mret, M_ret. eauto.
    + unfold mbind, M_bind, mret, M_ret. eauto.
Qed.

Lemma NotFoundAdd_wf k l d w b w' :
  int64 l → wf w → NotFoundAdd k l d w = Some (b, w') → wf w'.
Proof.
  intros Hl Hwf. destruct (items (table w) !! k) as [p|] eqn:Hk.
  - erewrite NotFoundAdd_present by done. intros [= <- <-]. by eapply wf_same.
  - rewrite NotFoundAdd_absent by done.
    pose proof (wf_inserted [EvLock; EvLookup k None] k l d w Hl Hwf) as H1.
    destruct (scan_due l (table w)).
    + intros ([] & w1 & Hrun & [= <- <-])%bind_inv. by eapply scan_wf.
    + intros ([] & w1 & [= <-] & [= <- <-])%bind_inv. done.
Qed.

Lemma void_run {A} (m : M A) w a w' : m w = Some (a, w') → void m w = Some ((), w').
Proof. intros Hm. unfold void. by erewrite bind_Some. Qed.

Lemma wf_alloc e w :
  item_ok (clock w) e → wf w →
  wf (mkWorld (clock w) (heap w ++ [e]) (table w) (trace w)).
Proof.
  intros He (Hv & Hok & Hld & Hky). split; [by apply valid_alloc|].
  split; [|split; [done|]].
  - cbn [heap clock]. apply Forall_app. split; [done|]. by apply Forall_singleton.
  - intros k p it Hk Hp. cbn [table heap] in *. destruct (Hv k p Hk) as [it' Hit'].
    rewrite (lookup_app_l_Some _ _ _ _ Hit') in Hp. simplify_eq. by eapply Hky.
Qed.

Lemma wf_update p it it' w :
  heap w !! p = Some it → key it' = key it → item_ok (clock w) it' → wf w →
  wf (mkWorld (clock w) (<[p := it']> (heap w)) (table w) (trace w)).
Proof.
  intros Hp Hkey He (Hv & Hok & Hld & Hky). split; [by apply valid_update|].
  split; [|split; [done|]].
  - cbn [heap clock]. by apply Forall_insert.
  - intros k q iq Hk. cbn [table heap] in *.
    destruct (decide (p = q)) as [<-|Hne].
    + rewrite list_lookup_insert_eq by (by eapply lookup_lt_Some).
      intros [= <-]. rewrite Hkey. by eapply Hky.
    + rewrite list_lookup_insert_ne by done. by apply Hky.
Qed.

Lemma heap_item_ok w p it : wf w → heap w !! p = Some it → item_ok (clock w) it.
Proof.
  intros (_ & Hok & _) Hp. eapply Forall_forall; [done|]. by eapply list_elem_of_lookup_2.
Qed.

Lemma wrap64_range z : int64 (wrap64 z).
Proof.
  unfold int64, wrap64, min_int64, max_int64.
  pose proof (Z.mod_pos_bound (z + 2 ^ 63) (2 ^ 64)). lia.
Qed.

Lemma kept_alive_ok now it : item_ok now it → item_ok now (kept_alive now it).
Proof.
  unfold item_ok; simpl. intros (? & ? & ? & ?). split; [lia|]. split; [lia|].
  split; [done|]. apply wrap64_range.
Qed.

Lemma Delete_wf k w x w' : wf w → Delete k w = Some (x, w') → wf w'.
Proof.
  intros Hwf. destruct (items (table w) !! k) as [r|] eqn:Hk.
  - destruct Hwf as (Hv & Hok & Hld & Hky). destruct (Hv k r Hk) as [it Hit].
    erewrite Delete_present by done. intros [= <- <-].
    split; [|split; [done|split; [done|]]].
    + intros k' p. cbn [table items with_items heap].
      rewrite lookup_delete. case_decide; [done|]. apply Hv.
    + intros k' p it'. cbn [table items with_items heap].
      rewrite lookup_delete. case_decide; [done|]. apply Hky.
  - rewrite Delete_absent by done. intros [= <- <-]. by eapply wf_same.
Qed.

Lemma Delete_total k w : valid w → ∃ x w', Delete k w = Some (x, w').
Proof.
  intros Hv. destruct (items (table w) !! k) as [r|] eqn:Hk.
  - destruct (Hv k r Hk) as [it Hit]. erewrite Delete_present by done. eauto.
  - rewrite Delete_absent by done. eauto.
Qed.

Lemma Value_total_wf k args w :
  wf w → ∃ x w', Value k args w = Some (x, w') ∧ wf w'.
Proof.
  intros Hwf. destruct (items (table w) !! k) as [r|] eqn:Hk.
  { pose proof Hwf as (Hv & _). destruct (Hv k r Hk) as [it Hit].
    erewrite Value_present by done. do 2 eexists. split; [done|].
    change (trace w ++ _) with
      (trace (mkWorld (clock w) (heap w) (table w)
                (trace w ++ [EvRLock; EvLookup k (Some r); EvRUnlock]))).
    apply (wf_update r it _ (mkWorld _ _ _ _)); cbn [clock heap]; [done..| |].
    - by eapply kept_alive_ok, heap_item_ok.
    - by eapply wf_same. }
  destruct (loadData (table w)) as [f|] eqn:Hf.
  2:{ rewrite Value_absent_no_loader by done. do 2 eexists. split; [done|].
      by eapply wf_same. }
  destruct (f (clock w) k args) as [e|] eqn:He.
  2:{ erewrite Value_absent_not_loadable by done. do 2 eexists. split; [done|].
      by eapply wf_same. }
  erewrite Value_absent_loaded by done.
  assert (item_ok (clock w) e) as Hok.
  { destruct Hwf as (_ & _ & Hld & _). by eapply Hld. }
  set (w1 := mkWorld (clock w) (heap w ++ [e]) (table w)
               (trace w ++ [EvRLock; EvLookup k None; EvRUnlock; EvLoadData k args])).
  assert (wf w1) as Hwf1.
  { apply (wf_alloc e (mkWorld (clock w) (heap w) (table w) _)); [done|].
    by eapply wf_same. }
  destruct (Add_frame k (lifeSpan e) (data e) w1) as (w' & Hadd & _); [apply Hwf1|].
  erewrite bind_Some by done. do 2 eexists. split; [done|].
  eapply Add_wf; [|done..]. apply Hok.
Qed.

Lemma timerFires_total_wf w : wf w → ∃ w', timerFires w = Some ((), w') ∧ wf w'.
Proof.
  intros Hwf. unfold timerFires. repeat mstep.
  destruct (cleanupTimer (table w)) as [c|]; [|by eexists].
  destruct (timer_active c && _); [|by eexists].
  mstep.
  set (w1 := mkWorld _ _ _ _).
  assert (wf w1) as Hwf1 by (by eapply wf_same).
  destruct (scan_frame w1) as (w' & Hrun & _); [apply Hwf1|].
  exists w'. split; [done|]. by eapply scan_wf.
Qed.

Lemma exec_wf (o : Op K V) w :
  wf w → op_ok w o → ∃ w', exec o w = Some ((), w') ∧ wf w'.
Proof.
  intros Hwf Hop. pose proof Hwf as (Hv & Hok & Hld & Hky).
  destruct o; cbn [exec op_ok] in *.
  - eexists. split; [done|]. split; [done|]. split; [|done].
    cbn [heap clock]. eapply Forall_impl; [done|]. intros it. apply item_ok_mono. lia.
  - by apply timerFires_total_wf.
  - eexists. split; [done|]. cbn [clock heap table trace].
    apply wf_alloc; [|done]. by apply new_item_ok.
  - apply lookup_lt_is_Some in Hop as [it Hit].
    erewrite KeepAlive_run by done. eexists. split; [done|].
    eapply wf_update; [done..| |done]. by eapply kept_alive_ok, heap_item_ok.
  - apply lookup_lt_is_Some in Hop as [it Hit].
    erewrite SetAboutToExpireCallback_run by done. eexists. split; [done|].
    eapply wf_update; [done..| |done]. by eapply (heap_item_ok w p it).
  - erewrite void_run by apply Count_run. eexists. split; [done|]. by eapply wf_same.
  - rewrite Foreach_run. eexists. split; [done|]. by eapply wf_same.
  - eexists. split; [done|]. split; [done|]. split; [done|]. split; [|done].
    cbn [table loadData with_loadData]. intros g ->. done.
  - eexists. split; [done|]. by eapply wf_same.
  - eexists. split; [done|]. by eapply wf_same.
  - eexists. split; [done|]. by eapply wf_same.
  - destruct (Add_frame k l d w Hv) as (w' & Hadd & _).
    erewrite void_run by done. eexists. split; [done|]. by eapply Add_wf.
  - destruct (Delete_total k w Hv) as (x & w' & Hdel).
    erewrite void_run by done. eexists. split; [done|]. by eapply Delete_wf.
  - erewrite void_run by apply Exists_run. eexists. split; [done|]. by eapply wf_same.
  - destruct (NotFoundAdd_total k l d w Hv) as (b & w' & Hrun).
    erewrite void_run by done. eexists. split; [done|]. by eapply NotFoundAdd_wf.
  - destruct (Value_total_wf k args w Hwf) as (x & w' & Hrun & Hwf').
    erewrite void_run by done. by eexists.
  - rewrite Flush_run. eexists. split; [done|]. split; [|split; [done|split; [done|]]].
    + intros k p. unfold flushed; cbn. by rewrite lookup_empty.
    + intros k p it. unfold flushed; cbn. by rewrite lookup_empty.
  - erewrite void_run by (by apply MostAccessed_run). eexists. split; [done|].
    by eapply wf_same.
Qed.

Lemma wf_newWorld now n : wf (newWorld (K:=K) (V:=V) now n).
Proof.
  split; [|split; [constructor|split; [done|]]].
  - intros k p. unfold newWorld; cbn. by rewrite lookup_empty.
  - intros k p it. unfold newWorld; cbn. by rewrite lookup_empty.
Qed.

Lemma steps_wf w os w' : wf w → steps w os w' → wf w'.
Proof.
  intros Hwf Hs. induction Hs as [|w o w1 os w2 Hop Hex _ IH]; [done|].
  apply IH. destruct (exec_wf o w Hwf Hop) as (w1' & Hex' & Hwf1). by simplify_eq.
Qed.

(** ** The calls of the specification *)

(** C2. [Add k l d] in a well-formed world returns a pointer [p] to a new
    object. It first reaches the world [w1] in which the new item is in
    the heap and bound to [k] (whatever [k] was bound to before), and the
    trace has grown by the critical section with the store, followed by
    the call of [addedItem] when it is set. Then, when [0 < l] and the
    interval read in the critical section is 0 or above [l], the call
    ends with [expirationCheck] run from [w1]; otherwise it ends in [w1].
    The scan always leaves events, so the trace tells the two apart. *)
Theorem Add_spec k l d w :
  wf w →
  let p := length (heap w) in
  let due := 0 < l ∧ (cleanupInterval (table w) = 0 ∨ l < cleanupInterval (table w)) in
  ∃ w1 w',
    clock w1 = clock w ∧
    heap w1 = heap w ++ [new_item (clock w) k l d] ∧
    table w1 = with_items (<[k := p]> (items (table w))) (table w) ∧
    trace w1 = trace w ++ [EvLock]
                 ++ log_ev (table w) (LogAdding k l (name (table w)))
                 ++ [EvStore k p; EvUnlock]
                 ++ opt_ev (addedItem (table w)) (λ f, EvAddedItem f p) ∧
    Add k l d w = Some (p, w') ∧
    (due → expirationCheck w1 = Some ((), w') ∧
           trace w' = trace w1 ++ expirationCheck_events (clock w1) (heap w1)
                                    (map_range (items (table w1))) (table w1)) ∧
    (¬ due → w' = w1) ∧
    (trace w' = trace w1 ↔ ¬ due).
Proof.
  intros (Hv & _) p due. exists (inserted [EvLock] k l d w).
  pose proof (valid_inserted [EvLock] k l d w Hv) as Hv1.
  assert (scan_due l (table w) = true ↔ due) as Hdue.
  { unfold scan_due, due. rewrite andb_true_iff, orb_true_iff.
    by rewrite Z.ltb_lt, Z.eqb_eq, Z.ltb_lt. }
  rewrite Add_run. destruct (scan_due l (table w)).
  - assert due as Hd by (by apply Hdue).
    destruct (scan_frame _ Hv1) as (w' & Hrun & _ & _ & _ & _ & Htr).
    exists w'. erewrite bind_Some by done. do 5 (split; [done|]).
    split; [done|]. split; [done|]. rewrite Htr. split; [|done].
    intros Heq. symmetry in Heq. rewrite <- (app_nil_r (trace _)) in Heq at 1.
    by apply app_inv_head in Heq.
  - assert (¬ due) as Hd by (intros ?%Hdue; done).
    exists (inserted [EvLock] k l d w). do 5 (split; [done|]).
    split; [done|]. done.
Qed.

(** C3. [Delete k] of a key bound to [r] returns [r], and what it does it
    does in this order: it looks the key up in a read-locked section,
    calls the table's [aboutToDeleteItem] when it is set, then the item's
    [aboutToExpire] when it is set, and then removes the key in a
    write-locked section. Every entry the scan removes is removed by the
    same events, in the same order. *)
Theorem Delete_spec k r w :
  wf w → items (table w) !! k = Some r →
  ∃ it w',
    heap w !! r = Some it ∧
    Delete k w = Some (inl r, w') ∧
    clock w' = clock w ∧ heap w' = heap w ∧
    table w' = with_items (delete k (items (table w))) (table w) ∧
    trace w' = trace w ++ Delete_events (table w) k r it ∧
    Delete_events (table w) k r it =
      [EvRLock; EvLookup k (Some r); EvRUnlock]
      ++ opt_ev (aboutToDeleteItem (table w)) (λ f, EvAboutToDeleteItem f r)
      ++ opt_ev (aboutToExpire it) (λ f, EvAboutToExpire f k)
      ++ [EvLock]
      ++ log_ev (table w) (LogDeleting k (createdOn it) (accessCount it) (name (table w)))
      ++ [EvRemove k; EvUnlock] ∧
    (∀ ws, expirationCheck w = Some ((), ws) → items (table ws) !! k = None →
       ∃ pre post, trace ws = trace w ++ pre ++ Delete_events (table w) k r it ++ post).
Proof.
  intros (Hv & _) Hk. destruct (Hv k r Hk) as [it Hit].
  exists it. eexists. split; [done|]. split; [by apply Delete_present|].
  cbn [clock heap table trace]. do 5 (split; [done|]).
  intros ws Hrun Hgone.
  destruct (scan_frame w Hv) as (ws' & Hrun' & _ & _ & _ & Hi & Htr). simplify_eq.
  rewrite Hi, Hk in Hgone; simpl in Hgone. unfold expired_at in Hgone.
  rewrite Hit in Hgone. destruct (expired (clock w) it) eqn:He; [|done].
  destruct (scan_events_infix (clock w) (heap w) (table w)
              (map_range (items (table w))) k r it)
    as (pre & post & Hev); [by apply elem_of_map_range|done..|].
  rewrite Htr. unfold expirationCheck_events. rewrite Hev.
  exists ([EvLock] ++ log_ev (table w) (scan_log (table w)) ++ [EvUnlock] ++ pre),
    (post ++ [EvLock; EvUnlock]).
  by rewrite <- !app_assoc.
Qed.

(** C4. In a well-formed world: [Delete] of an absent key answers
    [ErrKeyNotFound] and leaves clock, heap and table as they were;
    [Value] of an absent key answers [ErrKeyNotFound] when no loader is
    set and [ErrKeyNotFoundOrLoadable] when the loader answers nil; and
    [Add], [NotFoundAdd], [Flush], [Count], [Foreach], [Exists] and
    [MostAccessed], whose results carry no error, return for every
    argument. *)
Theorem errors_spec w :
  wf w →
  (∀ k, items (table w) !! k = None →
     ∃ w', Delete k w = Some (inr ErrKeyNotFound, w') ∧
           clock w' = clock w ∧ heap w' = heap w ∧ table w' = table w) ∧
  (∀ k args, items (table w) !! k = None → loadData (table w) = None →
     ∃ w', Value k args w = Some (inr ErrKeyNotFound, w')) ∧
  (∀ k args f, items (table w) !! k = None → loadData (table w) = Some f →
     f (clock w) k args = None →
     ∃ w', Value k args w = Some (inr ErrKeyNotFoundOrLoadable, w')) ∧
  (∀ k l d, ∃ p w', Add k l d w = Some (p, w')) ∧
  (∀ k l d, ∃ b w', NotFoundAdd k l d w = Some (b, w')) ∧
  (∃ w', Flush w = Some ((), w')) ∧
  (∃ n w', Count w = Some (n, w')) ∧
  (∀ f, ∃ w', Foreach f w = Some ((), w')) ∧
  (∀ k, ∃ b w', Exists k w = Some (b, w')) ∧
  (∀ n, ∃ rs w', MostAccessed n w = Some (rs, w')).
Proof.
  intros (Hv & _). split; [|split; [|split; [|split; [|split; [|split; [|split;
    [|split; [|split]]]]]]]].
  - intros k Hk. rewrite Delete_absent by done. by eexists.
  - intros k args Hk Hl. rewrite Value_absent_no_loader by done. by eexists.
  - intros k args f Hk Hl Hf. erewrite Value_absent_not_loadable by done. by eexists.
  - intros k l d. destruct (Add_frame k l d w Hv) as (w' & Hadd & _). eauto.
  - intros k l d. by apply NotFoundAdd_total.
  - rewrite Flush_run. by eexists.
  - rewrite Count_run. by do 2 eexists.
  - intros f. rewrite Foreach_run. by eexists.
  - intros k. rewrite Exists_run. by do 2 eexists.
  - intros n. rewrite MostAccessed_run by done. by do 2 eexists.
Qed.

(** C5. [NotFoundAdd k l d] in a well-formed world.
    When [k] is bound, it answers [false]; clock, heap (so the stored
    item, its value and its time stamps) and table are as before, and the
    trace has grown by one critical section holding the lookup and nothing
    else: no callback, no scan.
    When [k] is not bound, it answers [true] and leaves the clock, heap
    and table that [Add k l d] leaves; its events are those of [Add] with
    the lookup added right after the [Lock] that also covers the store. *)
Theorem NotFoundAdd_spec k l d w :
  wf w →
  (∀ p, items (table w) !! k = Some p →
     ∃ w', NotFoundAdd k l d w = Some (false, w') ∧
       clock w' = clock w ∧ heap w' = heap w ∧ table w' = table w ∧
       trace w' = trace w ++ [EvLock; EvLookup k (Some p); EvUnlock]) ∧
  (items (table w) !! k = None →
     ∃ w' wa rest,
       NotFoundAdd k l d w = Some (true, w') ∧
       Add k l d w = Some (length (heap w), wa) ∧
       clock w' = clock wa ∧ heap w' = heap wa ∧ table w' = table wa ∧
       trace wa = trace w ++ [EvLock]
                    ++ log_ev (table w) (LogAdding k l (name (table w)))
                    ++ [EvStore k (length (heap w)); EvUnlock] ++ rest ∧
       trace w' = trace w ++ [EvLock; EvLookup k None]
                    ++ log_ev (table w) (LogAdding k l (name (table w)))
                    ++ [EvStore k (length (heap w)); EvUnlock] ++ rest).
Proof.
  intros (Hv & _). split.
  { intros p Hk. erewrite NotFoundAdd_present by done. by eexists. }
  intros Hk. rewrite NotFoundAdd_absent, Add_run by done.
  pose proof (valid_inserted [EvLock] k l d w Hv) as Hva.
  pose proof (valid_inserted [EvLock; EvLookup k None] k l d w Hv) as Hvn.
  destruct (scan_due l (table w)).
  - rewrite !(bind_Some expirationCheck _ _ _ _ (expirationCheck_run _ Hva)).
    rewrite !(bind_Some expirationCheck _ _ _ _ (expirationCheck_run _ Hvn)).
    do 2 eexists.
    exists (opt_ev (addedItem (table w)) (λ f, EvAddedItem f (length (heap w)))
            ++ expirationCheck_events (clock w) (heap w ++ [new_item (clock w) k l d])
                 (map_range (<[k := length (heap w)]> (items (table w))))
                 (with_items (<[k := length (heap w)]> (items (table w))) (table w))).
    do 5 (split; [done|]). unfold inserted; cbn [clock heap table trace items with_items].
    split; by rewrite <- ?app_assoc.
  - do 2 eexists.
    exists (opt_ev (addedItem (table w)) (λ f, EvAddedItem f (length (heap w)))).
    do 5 (split; [done|]). unfold inserted; cbn [clock heap table trace items with_items].
    split; by rewrite <- ?app_assoc.
Qed.

(** C6. [MostAccessed n], for an [int64] [n], in a well-formed world
    returns a list of at most [n] item pointers (none for [n ≤ 0]), each
    of them an entry of the table, in which no item has more hits than
    one before it; when [n] is at least the size of the table, the list
    holds every entry of the table exactly once. Nothing but the trace
    changes. *)
Theorem MostAccessed_spec n w :
  wf w → int64 n →
  ∃ rs w',
    MostAccessed n w = Some (rs, w') ∧
    clock w' = clock w ∧ heap w' = heap w ∧ table w' = table w ∧
    (length rs ≤ Z.to_nat n)%nat ∧
    StronglySorted (hits_ge (heap w)) rs ∧
    Forall (λ p, ∃ k, items (table w) !! k = Some p) rs ∧
    (Z.of_nat (size (items (table w))) ≤ n →
       rs ≡ₚ (map_to_list (items (table w))).*2).
Proof.
  intros (Hv & _) [_ Hn]. rewrite MostAccessed_run by done. cbv zeta.
  do 2 eexists. split; [done|]. cbn [clock heap table]. do 3 (split; [done|]).
  rewrite loop_result_take by done. rewrite Z.sub_0_r. cbn [app].
  set (kvs := map_range (items (table w))).
  set (sorted := sort_Sort (pair_of (heap w) <$> kvs)).
  assert (Forall (λ v, ∃ p, items (table w) !! Key v = Some p ∧
                  AccessCount v = from_option accessCount 0 (heap w !! p)) sorted)
    as Hall.
  { apply Forall_forall. intros v Hin. unfold sorted in Hin.
    rewrite sort_Sort_perm in Hin. apply list_elem_of_fmap in Hin as ([k p] & -> & Hin).
    exists p. split; [|done]. by apply elem_of_map_range. }
  split; [|split; [|split]].
  - etrans; [apply omap_length_le|]. rewrite length_take. lia.
  - apply omap_sorted.
    + by apply Forall_take.
    + apply StronglySorted_take_prefix, sort_Sort_sorted.
  - apply Forall_forall. intros p (v & Hv' & Hp)%list_elem_of_omap. eauto.
  - intros Hsize. rewrite take_ge.
    2:{ unfold sorted. rewrite sort_Sort_perm, length_fmap. unfold kvs.
        rewrite map_range_perm, length_map_to_list. lia. }
    unfold sorted. rewrite sort_Sort_perm, omap_pair_of.
    + unfold kvs. by rewrite map_range_perm.
    + intros k p. apply elem_of_map_range.
Qed.

(** C7. [Flush] returns; afterwards the table has no entries ([Count]
    answers 0), [cleanupInterval] is 0 and no timer is pending (the handle,
    if there was one, is stopped); the heap is as before, and the events
    [Flush] appends are its critical section, with the log line and the
    reset of the map: no callback is among them. *)
Theorem Flush_spec w :
  ∃ w',
    Flush w = Some ((), w') ∧
    items (table w') = ∅ ∧
    (∃ w'', Count w' = Some (0%nat, w'')) ∧
    cleanupInterval (table w') = 0 ∧
    pendingTimer (table w') = None ∧
    cleanupTimer (table w') = Stop <$> cleanupTimer (table w) ∧
    clock w' = clock w ∧ heap w' = heap w ∧
    ∃ evs, trace w' = trace w ++ evs ∧
      evs = [EvLock] ++ log_ev (table w) (LogFlushing (name (table w)))
              ++ [EvClear; EvUnlock] ∧
      Forall (λ e, is_callback e = false) evs.
Proof.
  eexists. split; [apply Flush_run|]. cbn [clock heap table trace].
  split; [done|]. split; [rewrite Count_run; by eexists|].
  split; [done|]. split; [|split; [done|]].
  { unfold pendingTimer, flushed; cbn. by destruct (cleanupTimer (table w)). }
  do 2 (split; [done|]). eexists. split; [done|]. split; [done|].
  unfold log_ev. destruct (logger (table w)); repeat constructor.
Qed.

(** ** Item objects over a run *)

Lemma item_evolves_refl now it : item_evolves now it it.
Proof. unfold item_evolves. auto 10. Qed.

Lemma heap_step_refl now hp : heap_step now hp hp.
Proof. intros p it Hp. eauto using item_evolves_refl. Qed.

Lemma heap_step_app now hp ext : heap_step now hp (hp ++ ext).
Proof.
  intros p it Hp. exists it. split; [by apply lookup_app_l_Some|].
  apply item_evolves_refl.
Qed.

Lemma heap_step_insert now hp p it it' :
  hp !! p = Some it → item_evolves now it it' → heap_step now hp (<[p := it']> hp).
Proof.
  intros Hp Hev q iq Hq. destruct (decide (p = q)) as [<-|Hne].
  - exists it'. rewrite list_lookup_insert_eq by (by eapply lookup_lt_Some).
    by simplify_eq.
  - exists iq. rewrite list_lookup_insert_ne by done. split; [done|].
    apply item_evolves_refl.
Qed.

Lemma NotFoundAdd_heap k l d w b w' :
  valid w → NotFoundAdd k l d w = Some (b, w') →
  heap w' = heap w ∨ heap w' = heap w ++ [new_item (clock w) k l d].
Proof.
  intros Hv. destruct (items (table w) !! k) as [p|] eqn:Hk.
  - erewrite NotFoundAdd_present by done. intros [= <- <-]. by left.
  - rewrite NotFoundAdd_absent by done.
    pose proof (valid_inserted [EvLock; EvLookup k None] k l d w Hv) as Hv1.
    destruct (scan_due l (table w)).
    + destruct (scan_frame _ Hv1) as (w1 & Hrun & _ & Hh & _).
      erewrite bind_Some by done. intros [= <- <-]. right. by rewrite Hh.
    + unfold mbind, M_bind, mret, M_ret. intros [= <- <-]. by right.
Qed.

Lemma Value_heap k args w x w' :
  wf w → Value k args w = Some (x, w') → heap_step (clock w) (heap w) (heap w').
Proof.
  intros Hwf. destruct (items (table w) !! k) as [r|] eqn:Hk.
  { pose proof Hwf as (Hv & _). destruct (Hv k r Hk) as [it Hit].
    erewrite Value_present by done. intros [= <- <-]. cbn [heap].
    eapply heap_step_insert; [done|]. unfold item_evolves, kept_alive; simpl. auto 10. }
  destruct (loadData (table w)) as [f|] eqn:Hf.
  2:{ rewrite Value_absent_no_loader by done. intros [= <- <-]. apply heap_step_refl. }
  destruct (f (clock w) k args) as [e|] eqn:He.
  2:{ erewrite Value_absent_not_loadable by done. intros [= <- <-]. apply heap_step_refl. }
  erewrite Value_absent_loaded by done.
  set (w1 := mkWorld (clock w) (heap w ++ [e]) (table w) _).
  assert (valid w1) as Hv1 by (apply (valid_alloc e (mkWorld _ _ _ _)), Hwf).
  destruct (Add_frame k (lifeSpan e) (data e) w1 Hv1) as (w2 & Hadd & _ & Hh & _).
  erewrite bind_Some by done. intros [= <- <-]. rewrite Hh. cbn [heap w1].
  rewrite <- app_assoc. apply heap_step_app.
Qed.

Lemma timerFires_frame w w' :
  valid w → timerFires w = Some ((), w') → clock w' = clock w ∧ heap w' = heap w.
Proof.
  intros Hv. unfold timerFires. repeat mstep.
  destruct (cleanupTimer (table w)) as [c|]; [|by intros [= <-]].
  destruct (timer_active c && _); [|by intros [= <-]].
  mstep. set (w1 := mkWorld _ _ _ _).
  destruct (scan_frame w1) as (w2 & Hrun & Hc & Hh & _); [apply Hv|].
  rewrite Hrun. by intros [= <-].
Qed.

Lemma exec_heap (o : Op K V) w w' :
  wf w → op_ok w o → exec o w = Some ((), w') →
  clock w ≤ clock w' ∧ heap_step (clock w) (heap w) (heap w').
Proof.
  intros Hwf Hop. pose proof Hwf as (Hv & _).
  assert (∀ w1 : World K V, clock w1 = clock w → heap w1 = heap w →
            clock w ≤ clock w1 ∧ heap_step (clock w) (heap w) (heap w1)) as Hsame.
  { intros w1 -> ->. split; [done|]. apply heap_step_refl. }
  destruct o; cbn [exec op_ok] in *.
  - intros [= <-]. cbn [clock heap]. split; [lia|]. apply heap_step_refl.
  - intros [Hc Hh]%timerFires_frame; [|done]. by apply Hsame.
  - intros [= <-]. cbn [clock heap]. split; [done|]. apply heap_step_app.
  - apply lookup_lt_is_Some in Hop as [it Hit].
    erewrite KeepAlive_run by done. intros [= <-]. split; [done|]. cbn [heap].
    eapply heap_step_insert; [done|]. unfold item_evolves, kept_alive; simpl. auto 10.
  - apply lookup_lt_is_Some in Hop as [it Hit].
    erewrite SetAboutToExpireCallback_run by done. intros [= <-]. split; [done|].
    cbn [heap]. eapply heap_step_insert; [done|]. unfold item_evolves; simpl. auto 10.
  - erewrite void_run by apply Count_run. intros [= <-]. by apply Hsame.
  - rewrite Foreach_run. intros [= <-]. by apply Hsame.
  - intros [= <-]. by apply Hsame.
  - intros [= <-]. by apply Hsame.
  - intros [= <-]. by apply Hsame.
  - intros [= <-]. by apply Hsame.
  - destruct (Add_frame k l d w Hv) as (w1 & Hadd & Hc & Hh & _).
    erewrite void_run by done. intros [= <-]. rewrite Hc, Hh. split; [done|].
    apply heap_step_app.
  - destruct (items (table w) !! k) as [r|] eqn:Hk.
    + destruct (Hv k r Hk) as [it Hit].
      erewrite void_run by (by apply Delete_present). intros [= <-]. by apply Hsame.
    + erewrite void_run by (by apply Delete_absent). intros [= <-]. by apply Hsame.
  - erewrite void_run by apply Exists_run. intros [= <-]. by apply Hsame.
  - destruct (NotFoundAdd_total k l d w Hv) as (b & w1 & Hrun).
    erewrite void_run by done. intros [= <-].
    assert (clock w1 = clock w) as Hc.
    { revert Hrun. destruct (items (table w) !! k) as [p|] eqn:Hk.
      - erewrite NotFoundAdd_present by done. by intros [= <- <-].
      - rewrite NotFoundAdd_absent by done.
        pose proof (valid_inserted [EvLock; EvLookup k None] k l d w Hv) as Hv1.
        destruct (scan_due l (table w)).
        + destruct (scan_frame _ Hv1) as (w2 & Hrun & Hc & _).
          erewrite bind_Some by done. by intros [= <- <-].
        + unfold mbind, M_bind, mret, M_ret. by intros [= <- <-]. }
    rewrite Hc. split; [done|].
    destruct (NotFoundAdd_heap k l d w b w1 Hv Hrun) as [-> | ->];
      [apply heap_step_refl|apply heap_step_app].
  - destruct (Value_total_wf k args w Hwf) as (x & w1 & Hrun & _).
    erewrite void_run by done. intros [= <-].
    split; [|by eapply Value_heap].
    revert Hrun. destruct (items (table w) !! k) as [r|] eqn:Hk.
    { destruct (Hv k r Hk) as [it Hit].
      erewrite Value_present by done. by intros [= <- <-]. }
    destruct (loadData (table w)) as [f|] eqn:Hf.
    2:{ rewrite Value_absent_no_loader by done. by intros [= <- <-]. }
    destruct (f (clock w) k args) as [e|] eqn:He.
    2:{ erewrite Value_absent_not_loadable by done. by intros [= <- <-]. }
    erewrite Value_absent_loaded by done.
    set (w1' := mkWorld (clock w) (heap w ++ [e]) (table w) _).
    assert (valid w1') as Hv1 by (apply (valid_alloc e (mkWorld _ _ _ _)), Hwf).
    destruct (Add_frame k (lifeSpan e) (data e) w1' Hv1) as (w2 & Hadd & Hc & _).
    erewrite bind_Some by done. intros [= <- <-]. by rewrite Hc.
  - rewrite Flush_run. intros [= <-]. by apply Hsame.
  - erewrite void_run by (by apply MostAccessed_run). intros [= <-]. by apply Hsame.
Qed.

Lemma wrap64_add_l x y : wrap64 (wrap64 x + y) = wrap64 (x + y).
Proof.
  unfold wrap64. f_equal.
  replace ((x + 2 ^ 63) `mod` 2 ^ 64 - 2 ^ 63 + y + 2 ^ 63)
    with ((x + 2 ^ 63) `mod` 2 ^ 64 + y) by lia.
  rewrite Zplus_mod_idemp_l. f_equal. lia.
Qed.

Lemma steps_heap w os w' :
  wf w → steps w os w' →
  ∀ p it, heap w !! p = Some it →
    ∃ it' n, heap w' !! p = Some it' ∧ createdOn it' = createdOn it ∧
             0 ≤ n ≤ Z.of_nat (length os) ∧
             accessCount it' = wrap64 (accessCount it + n).
Proof.
  intros Hwf Hs. induction Hs as [|w o w1 os w2 Hop Hex _ IH]; intros p it Hp.
  { exists it, 0. split; [done|]. split; [done|]. split; [simpl; lia|].
    rewrite Z.add_0_r, wrap64_int64; [done|].
    by destruct (heap_item_ok w p it Hwf Hp) as (_ & _ & _ & ?). }
  destruct (exec_wf o w Hwf Hop) as (w1' & Hex' & Hwf1). simplify_eq.
  destruct (exec_heap o w w1 Hwf Hop Hex) as [_ Hstep].
  destruct (Hstep p it Hp) as (it1 & Hp1 & _ & _ & _ & Hcr & Hacc).
  destruct (IH Hwf1 p it1 Hp1) as (it' & n & Hp' & Hcr' & Hn & Hacc').
  destruct Hacc as [[_ Hacc]|[_ Hacc]].
  - exists it', n. split; [done|]. split; [congruence|]. split; [simpl; lia|].
    by rewrite Hacc', Hacc.
  - exists it', (1 + n). split; [done|]. split; [congruence|]. split; [simpl; lia|].
    rewrite Hacc', Hacc, wrap64_add_l. f_equal. lia.
Qed.

(** C8. An item made by [CreateCacheItem] has [createdOn] and
    [accessedOn] equal to the instant of the call, no hits and no expiry
    callback. In every world a run of calls reaches from a new table (and
    from any well-formed world), every item object has
    [createdOn ≤ accessedOn]. Over any run, an item object stays in the
    heap with its creation time, and its hit counter does not decrease as
    long as the [int64] counter cannot wrap, that is, as long as the
    counter plus the number of calls of the run stays within [int64]. In
    general the counter after a run is the counter before plus the number
    of keep-alives of the item, at most one for each call, in [int64]
    wrap-around arithmetic. *)
Theorem entry_invariants :
  (∀ k l d w, ∃ it,
     CreateCacheItem k l d w = Some (it, w) ∧
     createdOn it = clock w ∧ accessedOn it = clock w ∧
     accessCount it = 0 ∧ aboutToExpire it = None) ∧
  (∀ now n os w,
     steps (newWorld now n) os w →
     Forall (λ it, createdOn it ≤ accessedOn it) (heap w)) ∧
  (∀ w os w',
     wf w → steps w os w' →
     Forall (λ it, createdOn it ≤ accessedOn it) (heap w')) ∧
  (∀ w os w' p it,
     wf w → steps w os w' → heap w !! p = Some it →
     accessCount it + Z.of_nat (length os) ≤ max_int64 →
     ∃ it', heap w' !! p = Some it' ∧ createdOn it' = createdOn it ∧
            accessCount it ≤ accessCount it') ∧
  (∀ w os w' p it,
     wf w → steps w os w' → heap w !! p = Some it →
     ∃ it' n, heap w' !! p = Some it' ∧ 0 ≤ n ≤ Z.of_nat (length os) ∧
              accessCount it' = wrap64 (accessCount it + n)).
Proof.
  assert (∀ w os w', wf w → steps w os w' →
            Forall (λ it : CacheItem K V, createdOn it ≤ accessedOn it) (heap w')) as Hinv.
  { intros w os w' Hwf Hs. destruct (steps_wf w os w' Hwf Hs) as (_ & Hok & _).
    eapply Forall_impl; [done|]. by intros it (? & _). }
  split; [|split; [|split; [done|split]]].
  - intros k l d w. by eexists.
  - intros now n os w Hs. eapply Hinv; [|done]. apply wf_newWorld.
  - intros w os w' p it Hwf Hs Hp Hbound.
    destruct (steps_heap w os w' Hwf Hs p it Hp) as (it' & n & Hp' & Hcr & Hn & Hacc).
    exists it'. split; [done|]. split; [done|].
    destruct (heap_item_ok w p it Hwf Hp) as (_ & _ & _ & [Hlo _]).
    rewrite Hacc, wrap64_int64; [lia|]. unfold int64 in *. lia.
  - intros w os w' p it Hwf Hs Hp.
    destruct (steps_heap w os w' Hwf Hs p it Hp) as (it' & n & Hp' & _ & Hn & Hacc).
    by exists it', n.
Qed.

(** ** Replacing and loading *)





End properties.

(** ** The theorems at work on the example worlds *)

Lemma loader_sane : loader_ok Example.loader.
Proof.
  intros now k args e. unfold Example.loader. destruct (k =? 5)%nat; [|done].
  intros [= <-]. unfold item_ok, int64, min_int64, max_int64; simpl. lia.
Qed.

Ltac run_steps :=
  repeat (eapply steps_cons;
    [ first [ exact I | exact loader_sane
            | (unfold op_ok, int64, min_int64, max_int64; simpl; lia) ]
    | vm_compute; reflexivity
    | ]);
  apply steps_nil.

Lemma steps_w1 : steps Example.w0 Example.ops1 Example.w1.
Proof. unfold Example.ops1. run_steps. Qed.

Lemma wf_w1 : wf Example.w1.
Proof. eapply steps_wf; [apply wf_newWorld|apply steps_w1]. Qed.

Lemma steps_w2 : steps Example.w1 Example.ops2 Example.w2.
Proof. unfold Example.ops2. run_steps. Qed.

(** [n] calls of [KeepAlive] on an item add [n] to its counter, in
    [int64] arithmetic. *)
Lemma KeepAlive_many {K : Type} `{Countable K} {V : Type} `{!GoRuntime K} (n : nat) :
  ∀ (p : nat) (it : CacheItem K V) (w : World K V),
    heap w !! p = Some it → int64 (accessCount it) →
    ∃ w' it', steps w (replicate n (OpKeepAlive p)) w' ∧
      heap w' !! p = Some it' ∧
      accessCount it' = wrap64 (accessCount it + Z.of_nat n).
Proof.
  induction n as [|n IH]; intros p it w Hp Hint.
  - exists w, it. split; [apply steps_nil|]. split; [exact Hp|].
    rewrite Z.add_0_r. symmetry. by apply wrap64_int64.
  - pose proof (KeepAlive_run p it w Hp) as Hrun.
    pose proof (lookup_lt_Some _ _ _ Hp) as Hlt.
    destruct (IH p (kept_alive (clock w) it)
                (mkWorld (clock w) (<[p := kept_alive (clock w) it]> (heap w))
                   (table w) (trace w)))
      as (w' & it' & Hs & Hp' & Hc).
    { cbn [heap]. by apply list_lookup_insert_eq. }
    { apply wrap64_range. }
    exists w', it'. split; [|split; [exact Hp'|]].
    + cbn [replicate]. eapply steps_cons; [exact Hlt|exact Hrun|exact Hs].
    + rewrite Hc. cbn [accessCount kept_alive]. rewrite wrap64_add_l.
      f_equal. lia.
Qed.

Lemma expirationCheck_spec_witness :
  wf Example.w1 ∧
  ∃ w', expirationCheck Example.w1 = Some ((), w') ∧
        items (table w') !! 3%nat = None ∧
        items (table w') !! 2%nat = Some 1%nat.
Proof.
  split; [apply wf_w1|].
  destruct (expirationCheck_spec Example.w1 wf_w1)
    as (w' & Hrun & _ & _ & _ & Hent & _).
  exists w'. split; [exact Hrun|]. split.
  - edestruct (Hent 3%nat 2%nat) as [Hexp _]; [reflexivity..|].
    apply Hexp; by vm_compute.
  - edestruct (Hent 2%nat 1%nat) as (_ & _ & Himm); [reflexivity..|].
    by apply Himm.
Defined.

Lemma Add_spec_witness :
  wf Example.w1 ∧
  ∃ w', Add 4%nat 3 "d"%string Example.w1 = Some (3%nat, w').
Proof.
  split; [apply wf_w1|].
  destruct (Add_spec 4%nat 3 "d"%string Example.w1 wf_w1)
    as (w1 & w' & _ & _ & _ & _ & Hadd & _).
  exists w'. exact Hadd.
Defined.

Lemma Delete_spec_witness :
  wf Example.w1 ∧ items (table Example.w1) !! 3%nat = Some 2%nat ∧
  ∃ w', Delete 3%nat Example.w1 = Some (inl 2%nat, w') ∧
        trace w' = trace Example.w1 ++
          [EvRLock; EvLookup 3%nat (Some 2%nat); EvRUnlock;
           EvAboutToDeleteItem 8%nat 2%nat; EvAboutToExpire 9%nat 3%nat;
           EvLock; EvRemove 3%nat; EvUnlock].
Proof.
  split; [apply wf_w1|]. split; [reflexivity|].
  destruct (Delete_spec 3%nat 2%nat Example.w1 wf_w1 eq_refl)
    as (it & w' & Hit & Hdel & _ & _ & _ & Htr & _).
  exists w'. split; [exact Hdel|].
  injection Hit as <-. exact Htr.
Defined.

Lemma errors_spec_witness :
  wf Example.w1 ∧
  ∃ w', Delete 9%nat Example.w1 = Some (inr ErrKeyNotFound, w').
Proof.
  split; [apply wf_w1|].
  destruct (errors_spec Example.w1 wf_w1) as (Hdel & _).
  destruct (Hdel 9%nat eq_refl) as (w' & Hrun & _).
  exists w'. exact Hrun.
Defined.

Lemma NotFoundAdd_spec_witness :
  wf Example.w1 ∧
  ∃ w', NotFoundAdd 1%nat 5 "z"%string Example.w1 = Some (false, w') ∧
        heap w' = heap Example.w1.
Proof.
  split; [apply wf_w1|].
  destruct (NotFoundAdd_spec 1%nat 5 "z"%string Example.w1 wf_w1) as (Hpresent & _).
  destruct (Hpresent 0%nat eq_refl) as (w' & Hrun & _ & Hheap & _).
  exists w'. split; [exact Hrun|exact Hheap].
Defined.

Lemma MostAccessed_spec_witness :
  wf Example.w1 ∧ int64 2 ∧
  ∃ rs w', MostAccessed 2 Example.w1 = Some (rs, w') ∧ (length rs ≤ 2)%nat.
Proof.
  assert (int64 2) as Hn by (unfold int64, min_int64, max_int64; lia).
  split; [apply wf_w1|]. split; [exact Hn|].
  destruct (MostAccessed_spec 2 Example.w1 wf_w1 Hn)
    as (rs & w' & Hrun & _ & _ & _ & Hlen & _).
  exists rs, w'. split; [exact Hrun|exact Hlen].
Defined.

Lemma entry_invariants_witness :
  Forall (λ it : CacheItem nat string, createdOn it ≤ accessedOn it)
    (heap Example.w1) ∧
  wf Example.w1 ∧ steps Example.w1 Example.ops2 Example.w2 ∧
  heap Example.w1 !! 0%nat = Some (mkCacheItem 1%nat "a"%string 10 0 6 1 None) ∧
  1 + Z.of_nat (length Example.ops2) ≤ max_int64 ∧
  ∃ it', heap Example.w2 !! 0%nat = Some it' ∧ createdOn it' = 0 ∧
         1 ≤ accessCount it'.
Proof.
  assert (1 + Z.of_nat (length Example.ops2) ≤ max_int64) as Hbound
    by (vm_compute; discriminate).
  destruct (entry_invariants (K:=nat) (V:=string)) as (_ & Hinv & _ & Hcount & _).
  split; [exact (Hinv 0 "t"%string Example.ops1 Example.w1 steps_w1)|].
  split; [apply wf_w1|]. split; [apply steps_w2|]. split; [reflexivity|].
  split; [exact Hbound|].
  exact (Hcount Example.w1 Example.ops2 Example.w2 0%nat _
           wf_w1 steps_w2 eq_refl Hbound).
Defined.

(** C8 (counterexample). The hit counter can decrease: it is an [int64]
    that wraps. From a new table, [Add] of an entry and [max_int64] calls of
    [KeepAlive] on its item bring the counter to [max_int64]; the world is
    well-formed, and one more [KeepAlive] takes the counter down to
    [min_int64]. *)
Lemma accessCount_wraps :
  ∃ w w' : World nat string,
    steps Example.w0 Example.ops_wrap w ∧ wf w ∧
    steps w [OpKeepAlive 0%nat] w' ∧
    accessCount <$> heap w !! 0%nat = Some max_int64 ∧
    accessCount <$> heap w' !! 0%nat = Some min_int64.
Proof.
  assert (exec (OpAdd 1%nat 0 "a"%string) Example.w0 = Some ((), Example.wa))
    as Hadd by (vm_compute; reflexivity).
  assert (int64 0) as H0 by (unfold int64, min_int64, max_int64; lia).
  destruct (KeepAlive_many (Z.to_nat max_int64) 0%nat
              (mkCacheItem 1%nat "a"%string 0 0 0 0 None) Example.wa eq_refl H0)
    as (w & it & Hs & Hp & Hc).
  rewrite Z2Nat.id in Hc by (unfold max_int64; lia).
  change (accessCount it = max_int64) in Hc.
  assert (steps Example.w0 Example.ops_wrap w) as Hrun.
  { unfold Example.ops_wrap. eapply steps_cons; [exact H0|exact Hadd|exact Hs]. }
  pose proof (KeepAlive_run 0%nat it w Hp) as Hlast.
  eexists w, _. split; [exact Hrun|].
  split; [exact (steps_wf _ _ _ (wf_newWorld 0 "t"%string) Hrun)|].
  split; [|split].
  - eapply steps_cons; [exact (lookup_lt_Some _ _ _ Hp)|exact Hlast|apply steps_nil].
  - rewrite Hp. cbn [fmap option_fmap option_map]. by rewrite Hc.
  - cbn [heap]. rewrite list_lookup_insert_eq by exact (lookup_lt_Some _ _ _ Hp).
    cbn [fmap option_fmap option_map kept_alive accessCount]. rewrite Hc.
    reflexivity.
Qed.



(** ** The model run on the scenarios of the specification *)

(** The scan at instant 7 removes key 3, whose 5 units are over, by the
    events of [Delete], and arms the timer for the 9 units key 1 has left. *)
Example scan_at_7 :
  (λ r, (cleanupInterval (table r.2), items (table r.2) !! 3%nat,
         drop (length (trace Example.w1)) (trace r.2)))
    <$> expirationCheck Example.w1
  = Some (9, None,
          [EvLock; EvUnlock;
           EvRLock; EvLookup 3%nat (Some 2%nat); EvRUnlock;
           EvAboutToDeleteItem 8%nat 2%nat; EvAboutToExpire 9%nat 3%nat;
           EvLock; EvRemove 3%nat; EvUnlock;
           EvLock; EvUnlock]).
Proof. vm_compute. reflexivity. Qed.

(** A hit moves the counter of key 1 from 1 to 2. *)
Example value_hit :
  (λ r, (r.1, accessCount <$> heap r.2 !! 0%nat)) <$> Value 1%nat [] Example.w1
  = Some (inl 0%nat, Some 2).
Proof. vm_compute. reflexivity. Qed.

(** The item with a hit comes first; asking for more than there is gives
    all three entries. *)
Example most_accessed_2 : fst <$> MostAccessed 2 Example.w1 = Some [0%nat; 1%nat].
Proof. vm_compute. reflexivity. Qed.

Example most_accessed_5 :
  fst <$> MostAccessed 5 Example.w1 = Some [0%nat; 1%nat; 2%nat].
Proof. vm_compute. reflexivity. Qed.

(** After [Flush] nothing is left for the timer to do: no entry, no
    pending timer, and no callback is called however long one waits. *)
Example flush_then_wait :
  (let w := Example.run [OpFlush; OpSleep 100; OpTimer] Example.w1 in
   (size (items (table w)), pendingTimer (table w),
    filter (λ e, is_callback e = true)
      (drop (length (trace Example.w1)) (trace w))))
  = (0%nat, None, []).
Proof. vm_compute. reflexivity. Qed.

(** Without [Flush], the timer that fires after 100 units removes keys 3
    and 1, each with the table callback before the removal, and leaves the
    entry that never expires. *)
Example wait_then_timer :
  (let w := Example.run [OpSleep 100; OpTimer] Example.w1 in
   (size (items (table w)), pendingTimer (table w),
    filter (λ e, is_callback e = true)
      (drop (length (trace Example.w1)) (trace w))))
  = (1%nat, None,
     [EvAboutToDeleteItem 8%nat 2%nat; EvAboutToExpire 9%nat 3%nat;
      EvAboutToDeleteItem 8%nat 0%nat]).
Proof. vm_compute. reflexivity. Qed.

(** * Further properties of the package *)

Ltac mrun :=
  erewrite bind_Some by (first [apply log_run | apply call_run | reflexivity]);
  cbv beta iota zeta; cbn [clock heap table trace].

Section extras.
Context {K : Type} `{Countable K} {V : Type} `{!GoRuntime K}.

Implicit Types (w : World K V) (t : CacheTable K V) (it : CacheItem K V).
Implicit Types (k : K) (p r : loc) (hp : list (CacheItem K V)) (d : V).

(** ** Single calls *)

Lemma wrap64_succ z :
  int64 z → wrap64 (z + 1) = if decide (z = max_int64) then min_int64 else z + 1.
Proof.
  intros Hz. case_decide as Hmax.
  - subst z. by vm_compute.
  - apply wrap64_int64. unfold int64, min_int64, max_int64 in *. lia.
Qed.

(** X1. [KeepAlive] on an item object sets its access time to now and
    adds one to its [int64] hit counter, which at the largest [int64]
    wraps around to the smallest; the item's other fields, every other
    object, the table and the trace are as before. *)
Theorem KeepAlive_spec p it w :
  heap w !! p = Some it → int64 (accessCount it) →
  ∃ w' it',
    KeepAlive p w = Some ((), w') ∧
    heap w' !! p = Some it' ∧
    accessedOn it' = clock w ∧
    accessCount it' =
      (if decide (accessCount it = max_int64) then min_int64 else accessCount it + 1) ∧
    key it' = key it ∧ data it' = data it ∧ lifeSpan it' = lifeSpan it ∧
    createdOn it' = createdOn it ∧ aboutToExpire it' = aboutToExpire it ∧
    (∀ q, q ≠ p → heap w' !! q = heap w !! q) ∧
    length (heap w') = length (heap w) ∧
    clock w' = clock w ∧ table w' = table w ∧ trace w' = trace w.
Proof.
  intros Hp Hc. exists (mkWorld (clock w) (<[p := kept_alive (clock w) it]> (heap w))
                          (table w) (trace w)), (kept_alive (clock w) it).
  split; [by apply KeepAlive_run|]. cbn [heap clock table trace].
  split; [apply list_lookup_insert_eq; by eapply lookup_lt_Some|].
  split; [done|]. split; [by apply wrap64_succ|]. do 5 (split; [done|]).
  split; [intros q Hq; by apply list_lookup_insert_ne|].
  split; [apply length_insert|done].
Qed.

Lemma kept_alive_heap p it now (h : list (CacheItem K V)) :
  h !! p = Some it →
  ∃ it', <[p := kept_alive now it]> h !! p = Some it' ∧
    accessedOn it' = now ∧ accessCount it' = wrap64 (accessCount it + 1) ∧
    key it' = key it ∧ data it' = data it ∧ lifeSpan it' = lifeSpan it ∧
    createdOn it' = createdOn it ∧ aboutToExpire it' = aboutToExpire it ∧
    (∀ q, q ≠ p → <[p := kept_alive now it]> h !! q = h !! q).
Proof.
  intros Hp. exists (kept_alive now it).
  split; [apply list_lookup_insert_eq; by eapply lookup_lt_Some|].
  do 7 (split; [done|]).
  intros q Hq. by apply list_lookup_insert_ne.
Qed.

(** X2. [Value] on a bound key returns the stored item object and keeps
    it alive: its access time is now and its hit counter one more (in
    [int64] arithmetic), nothing else in the heap or the table changes,
    and the loader is not called even when one is set. *)
Theorem Value_hit k args p it w :
  items (table w) !! k = Some p → heap w !! p = Some it →
  ∃ w' it',
    Value k args w = Some (inl p, w') ∧
    heap w' !! p = Some it' ∧
    accessedOn it' = clock w ∧ accessCount it' = wrap64 (accessCount it + 1) ∧
    key it' = key it ∧ data it' = data it ∧ lifeSpan it' = lifeSpan it ∧
    createdOn it' = createdOn it ∧ aboutToExpire it' = aboutToExpire it ∧
    (∀ q, q ≠ p → heap w' !! q = heap w !! q) ∧
    clock w' = clock w ∧ table w' = table w ∧
    trace w' = trace w ++ [EvRLock; EvLookup k (Some p); EvRUnlock].
Proof.
  intros Hk Hp.
  destruct (kept_alive_heap p it (clock w) (heap w) Hp)
    as (it' & Hit & Hacc & Hcnt & Hkey & Hdata & Hls & Hcr & Hcb & Hoth).
  eexists _, it'. split; [by apply Value_present|].
  cbn [heap clock table trace].
  split; [exact Hit|]. do 7 (split; [done|]).
  split; [exact Hoth|done].
Qed.

(** X3. [Exists] answers whether the key is bound, which is exactly
    whether [Delete] of that key would return an item rather than
    [ErrKeyNotFound]; it changes neither the heap (no keep-alive, no
    loaded item) nor the table, and adds only its read-locked lookup to
    the trace. *)
Theorem Exists_spec k w :
  wf w →
  ∃ b w',
    Exists k w = Some (b, w') ∧
    (b = true ↔ is_Some (items (table w) !! k)) ∧
    (b = true ↔ ∃ p wd, Delete k w = Some (inl p, wd)) ∧
    (b = false ↔ ∃ wd, Delete k w = Some (inr ErrKeyNotFound, wd)) ∧
    clock w' = clock w ∧ heap w' = heap w ∧ table w' = table w ∧
    trace w' = trace w ++ [EvRLock; EvLookup k (items (table w) !! k); EvRUnlock].
Proof.
  intros (Hv & _). do 2 eexists. split; [apply Exists_run|].
  cbn [heap clock table trace]. split; [apply bool_decide_eq_true|].
  destruct (items (table w) !! k) as [p|] eqn:Hk.
  - destruct (Hv k p Hk) as [it Hit]. erewrite Delete_present by done.
    rewrite bool_decide_eq_true_2 by eauto.
    split; [split; eauto|]. split; [split; [done|]|done].
    by intros (wd & [=]).
  - rewrite Delete_absent by done.
    rewrite bool_decide_eq_false_2 by (by intros [? ?]).
    split; [split; [done|by intros (p & wd & [=])]|].
    split; [split; eauto|done].
Qed.

(** ** Calls in sequence *)


(** The world [Add] ends in: the world after the insert, or the scan's
    result from it. *)
Lemma Add_result k l d w :
  valid w →
  let wi := inserted [EvLock] k l d w in
  ∃ w', Add k l d w = Some (length (heap w), w') ∧
    (scan_due l (table w) = false ∧ w' = wi ∨
     scan_due l (table w) = true ∧
     w' = mkWorld (clock wi) (heap wi)
            (scan_table (clock wi) (heap wi) (map_range (items (table wi))) (table wi))
            (trace wi ++ expirationCheck_events (clock wi) (heap wi)
                            (map_range (items (table wi))) (table wi))).
Proof.
  intros Hv wi. rewrite Add_run. fold wi.
  pose proof (valid_inserted [EvLock] k l d w Hv) as Hv1. fold wi in Hv1.
  destruct (scan_due l (table w)).
  - erewrite bind_Some by (by apply expirationCheck_run). eexists. split; [done|].
    by right.
  - eexists. split; [done|]. by left.
Qed.




(** X6. [Delete] of a bound key removes that key and nothing else: the
    other keys stay bound as they were, [Count] goes down by one, the
    item object stays in the heap, and the scheduler is not touched (the
    timer and the interval are as before, even when the last entry with
    a life span goes). Afterwards [Exists] answers [false] and a second
    [Delete] fails with [ErrKeyNotFound]. *)
Theorem Delete_then k p w :
  wf w → items (table w) !! k = Some p →
  ∃ w1,
    Delete k w = Some (inl p, w1) ∧
    (∃ w2, Delete k w1 = Some (inr ErrKeyNotFound, w2)) ∧
    (∃ w2, Exists k w1 = Some (false, w2)) ∧
    (∃ n wc wc1, Count w = Some (S n, wc) ∧ Count w1 = Some (n, wc1)) ∧
    (∀ k', k' ≠ k → items (table w1) !! k' = items (table w) !! k') ∧
    heap w1 = heap w ∧
    cleanupTimer (table w1) = cleanupTimer (table w) ∧
    cleanupInterval (table w1) = cleanupInterval (table w).
Proof.
  intros (Hv & _) Hk. destruct (Hv k p Hk) as [it Hit].
  eexists. split; [by apply Delete_present|].
  split; [rewrite Delete_absent by apply lookup_delete_eq; by eexists|].
  split.
  { rewrite Exists_run. cbn [table items with_items].
    rewrite lookup_delete_eq, bool_decide_eq_false_2 by (by intros [? ?]). by eexists. }
  split.
  { rewrite !Count_run. cbn [table items with_items].
    rewrite map_size_delete, Hk. exists (pred (size (items (table w)))).
    do 2 eexists. split; [|done]. do 2 f_equal.
    assert (size (items (table w)) ≠ 0%nat); [|lia].
    intros Hsz%map_size_empty_inv. by rewrite Hsz, lookup_empty in Hk. }
  cbn [table items with_items heap cleanupTimer cleanupInterval].
  split; [intros k' Hk'; by apply lookup_delete_ne|done].
Qed.



(** X8. [Foreach] calls the visitor once for every entry of the table,
    with the key and the item bound to it, in the order the runtime
    ranges the map, and for nothing else; the item it passes holds the
    key it is passed with. The number of visits is what [Count] answers,
    and nothing but the trace changes. *)
Theorem Foreach_visits f w :
  wf w →
  ∃ w' visits,
    Foreach f w = Some ((), w') ∧
    trace w' = trace w ++ [EvRLock]
                 ++ ((λ kv, EvTrans f kv.1 kv.2) <$> visits) ++ [EvRUnlock] ∧
    visits ≡ₚ map_to_list (items (table w)) ∧
    NoDup visits.*1 ∧
    (∃ wc, Count w = Some (length visits, wc)) ∧
    (∀ k p, (k, p) ∈ visits →
       items (table w) !! k = Some p ∧ ∃ it, heap w !! p = Some it ∧ key it = k) ∧
    clock w' = clock w ∧ heap w' = heap w ∧ table w' = table w.
Proof.
  intros (Hv & _ & _ & Hky). eexists. exists (map_range (items (table w))).
  split; [apply Foreach_run|]. cbn [clock heap table trace]. split; [done|].
  split; [apply map_range_perm|]. split; [apply map_range_NoDup|].
  split.
  { eexists. rewrite Count_run. do 2 f_equal.
    by rewrite map_range_perm, length_map_to_list. }
  split; [|done]. intros k p Hin%elem_of_map_range. split; [done|].
  destruct (Hv k p Hin) as [it Hit]. exists it. split; [done|]. by eapply Hky.
Qed.

(** X9. [Flush] resets the entries and the scheduler and nothing else:
    the table keeps its name, logger, loader and callbacks, and the item
    objects stay in the heap. Afterwards no key is bound ([Exists]
    answers [false], [Delete] fails with [ErrKeyNotFound]), and the timer
    firing does nothing. *)
Theorem Flush_keeps w :
  ∃ w',
    Flush w = Some ((), w') ∧
    name (table w') = name (table w) ∧ logger (table w') = logger (table w) ∧
    loadData (table w') = loadData (table w) ∧
    addedItem (table w') = addedItem (table w) ∧
    aboutToDeleteItem (table w') = aboutToDeleteItem (table w) ∧
    heap w' = heap w ∧
    (∀ k, ∃ w2, Exists k w' = Some (false, w2)) ∧
    (∀ k, ∃ w2, Delete k w' = Some (inr ErrKeyNotFound, w2)) ∧
    timerFires w' = Some ((), w').
Proof.
  eexists. split; [apply Flush_run|]. cbn [table heap]. do 6 (split; [done|]).
  split; [|split].
  - intros k. rewrite Exists_run. cbn. rewrite lookup_empty.
    rewrite bool_decide_eq_false_2 by (by intros [? ?]). by eexists.
  - intros k. rewrite Delete_absent by apply lookup_empty. by eexists.
  - unfold timerFires. repeat mrun. unfold flushed; cbn.
    by destruct (cleanupTimer (table w)).
Qed.




(** ** Life spans at the edges *)

Lemma valid_Sleep n w :
  valid w → valid (mkWorld (clock w + Z.of_N n) (heap w) (table w) (trace w)).
Proof. done. Qed.

Lemma Sub_nonneg (a b : Z) : b ≤ a → 0 ≤ Sub a b.
Proof. unfold Sub, min_int64, max_int64. lia. Qed.

Lemma Sub_exact (a b : Z) : b ≤ a → a - b ≤ max_int64 → Sub a b = a - b.
Proof. unfold Sub, min_int64, max_int64. lia. Qed.

Lemma Sub_ge (a b x : Z) : b ≤ a → x ≤ max_int64 → x ≤ a - b → x ≤ Sub a b.
Proof. unfold Sub, min_int64, max_int64. lia. Qed.

(** X12. A negative life span is not "never expires": [Add] with
    [l < 0] stores the entry without running the scan, so the timer and
    the interval stay as they were; and every scan, at whatever instant,
    removes every entry with a negative life span. *)
Theorem negative_lifeSpan k l d w :
  wf w → l < 0 →
  (∃ w1,
     Add k l d w = Some (length (heap w), w1) ∧
     items (table w1) !! k = Some (length (heap w)) ∧
     cleanupTimer (table w1) = cleanupTimer (table w) ∧
     cleanupInterval (table w1) = cleanupInterval (table w) ∧
     trace w1 = trace w ++ [EvLock]
                  ++ log_ev (table w) (LogAdding k l (name (table w)))
                  ++ [EvStore k (length (heap w)); EvUnlock]
                  ++ opt_ev (addedItem (table w)) (λ f, EvAddedItem f (length (heap w))) ∧
     ∀ n, ∃ w3,
       expirationCheck (mkWorld (clock w1 + Z.of_N n) (heap w1) (table w1) (trace w1))
         = Some ((), w3) ∧
       items (table w3) !! k = None) ∧
  (∀ k' p it, items (table w) !! k' = Some p → heap w !! p = Some it →
     lifeSpan it < 0 →
     ∃ w', expirationCheck w = Some ((), w') ∧ items (table w') !! k' = None).
Proof.
  intros Hwf Hl. pose proof Hwf as (Hv & _). split.
  - destruct (Add_result k l d w Hv) as (w1 & Hadd & Hw).
    assert (scan_due l (table w) = false) as Hdue.
    { unfold scan_due. by rewrite (proj2 (Z.ltb_ge 0 l)) by lia. }
    destruct Hw as [[_ ->]|[? _]]; [|congruence].
    eexists. split; [done|]. unfold inserted at 1 2 3 4.
    cbn [table heap clock trace items with_items cleanupTimer cleanupInterval].
    split; [by rewrite lookup_insert_eq|]. do 3 (split; [done|]).
    intros n.
    pose proof (valid_inserted [EvLock] k l d w Hv) as Hv1.
    destruct (scan_frame _ (valid_Sleep n _ Hv1)) as (w3 & Hrun & _ & _ & _ & Hi & _).
    exists w3. split; [done|]. rewrite Hi. unfold inserted.
    cbn [table heap clock items with_items]. rewrite lookup_insert_eq. simpl.
    unfold expired_at. rewrite lookup_app_r, Nat.sub_diag by done.
    cbn [lookup list_lookup].
    assert (expired (clock w + Z.of_N n) (new_item (clock w) k l d) = true) as ->; [|done].
    apply expired_true. simpl. split; [lia|].
    unfold idle; simpl. pose proof (Sub_nonneg (clock w + Z.of_N n) (clock w)). lia.
  - intros k' p it Hk Hp Hneg.
    destruct (scan_frame w Hv) as (w' & Hrun & _ & _ & _ & Hi & _).
    exists w'. split; [done|]. rewrite Hi, Hk. simpl. unfold expired_at. rewrite Hp.
    assert (expired (clock w) it = true) as ->; [|done].
    apply expired_true. split; [lia|].
    destruct (heap_item_ok w p it Hwf Hp) as (_ & Ha & _).
    pose proof (idle_nonneg (clock w) it Ha). lia.
Qed.

(** X13. A hit restarts the life span: after [Value] has returned the
    entry of [k], whose life span [l] is positive, a scan [n] units later
    keeps the entry when [n < l] and removes it when [l ≤ n], however
    long the entry had been idle before the hit. *)
Theorem Value_restarts_lifeSpan k args p it n w :
  wf w → items (table w) !! k = Some p → heap w !! p = Some it →
  0 < lifeSpan it →
  ∃ w1 w3,
    Value k args w = Some (inl p, w1) ∧
    expirationCheck (mkWorld (clock w1 + Z.of_N n) (heap w1) (table w1) (trace w1))
      = Some ((), w3) ∧
    (Z.of_N n < lifeSpan it → items (table w3) !! k = Some p) ∧
    (lifeSpan it ≤ Z.of_N n → items (table w3) !! k = None).
Proof.
  intros Hwf Hk Hp Hl. pose proof Hwf as (Hv & _).
  destruct (heap_item_ok w p it Hwf Hp) as (_ & _ & [_ Hmax] & _).
  eexists. 
  set (w1 := mkWorld (clock w) (<[p := kept_alive (clock w) it]> (heap w)) (table w)
               (trace w ++ [EvRLock; EvLookup k (Some p); EvRUnlock])).
  assert (valid w1) as Hv1.
  { apply (valid_update p _ (mkWorld _ _ _ _)). apply Hv. }
  destruct (scan_frame _ (valid_Sleep n w1 Hv1)) as (w3 & Hrun & _ & _ & _ & Hi & _).
  exists w3. split; [by apply Value_present|]. split; [done|].
  assert (items (table w3) !! k =
          if expired (clock w + Z.of_N n) (kept_alive (clock w) it) then None else Some p)
    as ->.
  { rewrite Hi. cbn [table heap clock w1]. rewrite Hk. simpl. unfold expired_at.
    by rewrite list_lookup_insert_eq by (by eapply lookup_lt_Some). }
  split; intros Hn.
  - assert (expired (clock w + Z.of_N n) (kept_alive (clock w) it) = false) as ->; [|done].
    apply expired_false. right. unfold idle; simpl. rewrite Sub_exact; lia.
  - assert (expired (clock w + Z.of_N n) (kept_alive (clock w) it) = true) as ->; [|done].
    apply expired_true. split; [simpl; lia|]. unfold idle; simpl.
    apply Sub_ge; lia.
Qed.

(** ** The scheduler over a run *)

Lemma pendingTimer_with_items (m : gmap K loc) t :
  pendingTimer (with_items m t) = pendingTimer t.
Proof. done. Qed.

(** Whatever the world before, the scan leaves the scheduler consistent
    and every entry with a life span covered by the timer it sets. *)
Lemma scan_sched w tr :
  wf w →
  let w' := mkWorld (clock w) (heap w)
              (scan_table (clock w) (heap w) (map_range (items (table w))) (table w)) tr in
  armed w' ∧ covered w'.
Proof.
  intros Hwf w'. pose proof Hwf as (Hv & Hok & _).
  set (now := clock w). set (kvs := map_range (items (table w))).
  destruct (scan_smallest_spec now (heap w) kvs 0 Hok) as (Hatt & _ & Hlow); [done|].
  set (s := scan_smallest now (heap w) 0 kvs) in *.
  assert (0 ≤ s) as Hs.
  { destruct Hatt as [->|(k & p & it & Hin & Hp & Hz & He & _)]; [done|].
    destruct (Hlow k p it Hin Hp Hz He). lia. }
  assert (pendingTimer (table w') =
          if 0 <? s then Some (AfterFunc now s) else None) as Hpt.
  { unfold w', scan_table. fold now kvs s. cbn [table].
    destruct (0 <? s); [done|]. unfold pendingTimer; cbn.
    by destruct (cleanupTimer (table w)). }
  assert (cleanupInterval (table w') = s) as Hci.
  { unfold w'. cbn [table]. apply scan_table_cleanupInterval. }
  split.
  - unfold armed. rewrite Hpt, Hci. split; [done|].
    destruct (Z.ltb_spec 0 s); [|lia]. cbn. repeat split; [done|]. unfold w'; cbn. lia.
  - intros k p it Hk Hp Hl. unfold w' in Hk, Hp. cbn [table heap] in Hk, Hp.
    rewrite scan_table_items in Hk. fold now kvs in Hk. unfold kvs in Hk.
    rewrite scan_items_range in Hk.
    destruct (items (table w) !! k) as [q|] eqn:Hq; [|done]. simpl in Hk.
    unfold expired_at in Hk. destruct (heap w !! q) as [iq|] eqn:Hiq.
    2:{ simplify_eq. }
    destruct (expired now iq) eqn:He; [done|].
    assert (q = p) as -> by congruence. assert (iq = it) as -> by congruence.
    destruct (Hlow k p it) as [Hpos Hle]; [by apply elem_of_map_range|done|lia|done|].
    rewrite Hpt. apply Z.ltb_lt in Hpos as Hpos'. rewrite Hpos'.
    eexists. split; [done|]. cbn.
    destruct (heap_item_ok w p it Hwf Hp) as (_ & Ha & [_ Hmax] & _).
    apply expired_false in He as [?|Hidle]; [lia|].
    unfold remaining, deadline, idle in *. fold now in Ha.
    unfold Sub, min_int64, max_int64 in *. lia.
Qed.

(** A call that leaves timer and interval alone, binds no new key and
    lets item objects evolve keeps the scheduler consistent and the
    entries covered. *)
Lemma sched_step w w' :
  wf w → armed w → covered w →
  clock w ≤ clock w' → heap_step (clock w) (heap w) (heap w') →
  cleanupTimer (table w') = cleanupTimer (table w) →
  cleanupInterval (table w') = cleanupInterval (table w) →
  (∀ k p, items (table w') !! k = Some p → items (table w) !! k = Some p) →
  armed w' ∧ covered w'.
Proof.
  intros Hwf [Hi Ha] Hcov Hc Hh Ht Hint Hsub.
  assert (pendingTimer (table w') = pendingTimer (table w)) as Hpt.
  { unfold pendingTimer. by rewrite Ht. }
  split.
  - unfold armed. rewrite Hpt, Hint. split; [done|].
    destruct (pendingTimer (table w)) as [c|]; [|done].
    destruct Ha as (? & ? & ?). repeat split; [done..|lia].
  - intros k p it' Hk%Hsub Hp Hl. rewrite Hpt.
    destruct Hwf as (Hv & Hwf'). destruct (Hv k p Hk) as [it Hit].
    destruct (Hh p it Hit) as (it'' & Hp' & _ & _ & Hls & _ & Hacc). simplify_eq.
    destruct (Hcov k p it Hk Hit) as (c & Hc' & Hdl); [lia|].
    exists c. split; [done|]. unfold deadline in *. rewrite Hls.
    destruct Hwf' as (Hok & _).
    assert (item_ok (clock w) it) as (_ & Hnow & _).
    { eapply Forall_forall; [done|]. by eapply list_elem_of_lookup_2. }
    destruct Hacc as [[-> _]|[-> _]]; lia.
Qed.

(** The insert of [Add] and [NotFoundAdd], when no scan follows. *)
Lemma sched_inserted pre k l d w :
  wf w → armed w → covered w → scan_due l (table w) = false →
  armed (inserted pre k l d w) ∧ covered (inserted pre k l d w).
Proof.
  intros Hwf [Hi Ha] Hcov Hdue. split; [done|].
  intros k' p' it'. unfold inserted; cbn [table heap items with_items].
  rewrite pendingTimer_with_items, lookup_insert. case_decide as Hk.
  - intros [= <-]. rewrite lookup_app_r, Nat.sub_diag by done.
    intros [= <-]. cbn [lifeSpan new_item]. intros Hl.
    unfold scan_due in Hdue. rewrite (proj2 (Z.ltb_lt 0 l)) in Hdue by done.
    cbn in Hdue. apply orb_false_iff in Hdue as [Hz%Z.eqb_neq Hlt%Z.ltb_ge].
    destruct (pendingTimer (table w)) as [c|]; [|done].
    destruct Ha as (Hd & _ & Hwhen). exists c. split; [done|].
    unfold deadline; simpl. lia.
  - intros Hk' Hp' Hl. destruct Hwf as (Hv & _). destruct (Hv k' p' Hk') as [it Hit].
    rewrite (lookup_app_l_Some _ _ _ _ Hit) in Hp'. simplify_eq.
    by eapply Hcov.
Qed.

Lemma sched_Add k l d w p w' :
  int64 l → wf w → armed w → covered w →
  Add k l d w = Some (p, w') → armed w' ∧ covered w'.
Proof.
  intros Hl Hwf Ha Hcov Hadd. destruct (Add_result k l d w) as (w1 & Hadd' & Hw);
    [apply Hwf|].
  rewrite Hadd' in Hadd. injection Hadd as <- <-.
  destruct Hw as [[Hdue ->]|[_ ->]]; [by apply sched_inserted|].
  apply (scan_sched (inserted [EvLock] k l d w)). by apply wf_inserted.
Qed.

Lemma sched_NotFoundAdd k l d w b w' :
  int64 l → wf w → armed w → covered w →
  NotFoundAdd k l d w = Some (b, w') → armed w' ∧ covered w'.
Proof.
  intros Hl Hwf Ha Hcov. destruct (items (table w) !! k) as [p|] eqn:Hk.
  - erewrite NotFoundAdd_present by done. intros [= <- <-].
    apply (sched_step w); [done..|apply heap_step_refl|done|done|done].
  - rewrite NotFoundAdd_absent by done.
    pose proof (wf_inserted [EvLock; EvLookup k None] k l d w Hl Hwf) as Hwf1.
    destruct (scan_due l (table w)) eqn:Hdue.
    + erewrite bind_Some by (apply expirationCheck_run, Hwf1). intros [= <- <-].
      by apply (scan_sched (inserted [EvLock; EvLookup k None] k l d w)).
    + intros [= <- <-]. by apply sched_inserted.
Qed.

Lemma sched_Value k args w x w' :
  wf w → armed w → covered w →
  Value k args w = Some (x, w') → armed w' ∧ covered w'.
Proof.
  intros Hwf Ha Hcov. destruct (items (table w) !! k) as [r|] eqn:Hk.
  { pose proof Hwf as (Hv & _). destruct (Hv k r Hk) as [it Hit].
    erewrite Value_present by done. intros [= <- <-].
    apply (sched_step w); [done..| |done|done|done]. cbn [heap].
    eapply heap_step_insert; [done|]. unfold item_evolves, kept_alive; simpl. auto 10. }
  destruct (loadData (table w)) as [f|] eqn:Hf.
  2:{ rewrite Value_absent_no_loader by done. intros [= <- <-].
      apply (sched_step w); [done..|apply heap_step_refl|done|done|done]. }
  destruct (f (clock w) k args) as [e|] eqn:He.
  2:{ erewrite Value_absent_not_loadable by done. intros [= <- <-].
      apply (sched_step w); [done..|apply heap_step_refl|done|done|done]. }
  erewrite Value_absent_loaded by done.
  assert (item_ok (clock w) e) as Hok.
  { destruct Hwf as (_ & _ & Hld & _). by eapply Hld. }
  set (wl := mkWorld (clock w) (heap w ++ [e]) (table w) _).
  assert (wf wl) as Hwfl.
  { apply (wf_alloc e (mkWorld (clock w) (heap w) (table w) _)); [done|].
    by eapply wf_same. }
  assert (armed wl ∧ covered wl) as [Hal Hcl].
  { apply (sched_step w); [done..|apply heap_step_app|done|done|done]. }
  destruct (Add_frame k (lifeSpan e) (data e) wl) as (w2 & Hadd & _); [apply Hwfl|].
  erewrite bind_Some by done. intros [= <- <-].
  eapply sched_Add; [|done..]. apply Hok.
Qed.

Lemma sched_timerFires w w' :
  wf w → armed w → covered w →
  timerFires w = Some ((), w') → armed w' ∧ covered w'.
Proof.
  intros Hwf Ha Hcov. unfold timerFires. repeat mrun.
  destruct (cleanupTimer (table w)) as [c|] eqn:Hc; [|by intros [= <-]].
  destruct (timer_active c && _); [|by intros [= <-]].
  mrun. set (w1 := mkWorld _ _ _ _).
  assert (wf w1) as Hwf1 by (by eapply wf_same).
  rewrite expirationCheck_run by apply Hwf1. intros [= <-].
  by apply (scan_sched w1).
Qed.

Lemma exec_sched (o : Op K V) w w' :
  wf w → armed w → covered w → op_ok w o →
  exec o w = Some ((), w') → armed w' ∧ covered w'.
Proof.
  intros Hwf Ha Hcov Hop. pose proof Hwf as (Hv & _).
  destruct o; cbn [exec op_ok] in *.
  - intros [= <-]. apply (sched_step w); [done|done|done|cbn; lia|apply heap_step_refl|done|done|done].
  - by apply sched_timerFires.
  - intros [= <-]. apply (sched_step w); [done..|apply heap_step_app|done|done|done].
  - apply lookup_lt_is_Some in Hop as [it Hit].
    erewrite KeepAlive_run by done. intros [= <-].
    apply (sched_step w); [done..| |done|done|done]. cbn [heap].
    eapply heap_step_insert; [done|]. unfold item_evolves, kept_alive; simpl. auto 10.
  - apply lookup_lt_is_Some in Hop as [it Hit].
    erewrite SetAboutToExpireCallback_run by done. intros [= <-].
    apply (sched_step w); [done..| |done|done|done]. cbn [heap].
    eapply heap_step_insert; [done|]. unfold item_evolves; simpl. auto 10.
  - erewrite void_run by apply Count_run. intros [= <-].
    apply (sched_step w); [done..|apply heap_step_refl|done|done|done].
  - rewrite Foreach_run. intros [= <-].
    apply (sched_step w); [done..|apply heap_step_refl|done|done|done].
  - intros [= <-]. apply (sched_step w); [done..|apply heap_step_refl|done|done|done].
  - intros [= <-]. apply (sched_step w); [done..|apply heap_step_refl|done|done|done].
  - intros [= <-]. apply (sched_step w); [done..|apply heap_step_refl|done|done|done].
  - intros [= <-]. apply (sched_step w); [done..|apply heap_step_refl|done|done|done].
  - destruct (Add_frame k l d w Hv) as (w1 & Hadd & _).
    erewrite void_run by done. intros [= <-]. by eapply sched_Add.
  - destruct (items (table w) !! k) as [r|] eqn:Hk.
    + destruct (Hv k r Hk) as [it Hit].
      erewrite void_run by (by apply Delete_present). intros [= <-].
      apply (sched_step w); [done..|apply heap_step_refl|done|done|].
      intros k' p'. cbn [table items with_items]. rewrite lookup_delete.
      by case_decide.
    + erewrite void_run by (by apply Delete_absent). intros [= <-].
      apply (sched_step w); [done..|apply heap_step_refl|done|done|done].
  - erewrite void_run by apply Exists_run. intros [= <-].
    apply (sched_step w); [done..|apply heap_step_refl|done|done|done].
  - destruct (NotFoundAdd_total k l d w Hv) as (b & w1 & Hrun).
    erewrite void_run by done. intros [= <-]. by eapply sched_NotFoundAdd.
  - destruct (Value_total_wf k args w Hwf) as (x & w1 & Hrun & _).
    erewrite void_run by done. intros [= <-]. by eapply sched_Value.
  - rewrite Flush_run. intros [= <-]. split.
    + unfold armed, pendingTimer, flushed; cbn. split; [done|].
      by destruct (cleanupTimer (table w)).
    + intros k p it. unfold flushed; cbn. by rewrite lookup_empty.
  - erewrite void_run by (by apply MostAccessed_run). intros [= <-].
    apply (sched_step w); [done..|apply heap_step_refl|done|done|done].
Qed.

Lemma steps_sched w os w' :
  wf w → armed w → covered w → steps w os w' → armed w' ∧ covered w'.
Proof.
  intros Hwf Ha Hcov Hs. induction Hs as [|w o w1 os w2 Hop Hex _ IH]; [done|].
  destruct (exec_wf o w Hwf Hop) as (w1' & Hex' & Hwf1). simplify_eq.
  destruct (exec_sched o w w1 Hwf Ha Hcov Hop Hex) as [Ha1 Hcov1]. by apply IH.
Qed.

Lemma reachable_inv w : reachable w → wf w ∧ armed w ∧ covered w.
Proof.
  intros (now & n & os & Hs).
  split; [by eapply steps_wf; [apply wf_newWorld|]|].
  eapply steps_sched; [apply wf_newWorld| | |done].
  - by split.
  - intros k p it. unfold newWorld; cbn. by rewrite lookup_empty.
Qed.


(** X14. The scheduler is idle or armed, never in between: in every
    world a run of calls reaches from a new table, [cleanupInterval] is
    not negative, a timer is pending exactly when it is positive, and
    the pending timer was set for that interval, at an instant that is
    not in the future. *)
Theorem scheduler_state w :
  reachable w →
  0 ≤ cleanupInterval (table w) ∧
  (pendingTimer (table w) = None ↔ cleanupInterval (table w) = 0) ∧
  (∀ c, pendingTimer (table w) = Some c →
     timer_d c = cleanupInterval (table w) ∧
     timer_when c ≤ clock w + timer_d c).
Proof.
  intros (_ & [Hi Ha] & _)%reachable_inv. split; [done|].
  destruct (pendingTimer (table w)) as [c|].
  - destruct Ha as (Hd & Hpos & Hwhen). split; [split; [done|lia]|].
    by intros c' [= <-].
  - split; [done|]. by intros c' [=].
Qed.



(** ** Item objects and their accessors *)

Lemma accessor_run {A} (g : CacheItem K V → A) p it w :
  heap w !! p = Some it → (it' ← load p; mret (g it')) w = Some (g it, w).
Proof. intros Hp. erewrite bind_Some by (unfold load; by rewrite Hp). done. Qed.

Lemma steps_fields w os w' :
  wf w → steps w os w' →
  ∀ p it, heap w !! p = Some it →
    ∃ it', heap w' !! p = Some it' ∧
      key it' = key it ∧ data it' = data it ∧ lifeSpan it' = lifeSpan it ∧
      createdOn it' = createdOn it ∧
      accessedOn it ≤ accessedOn it' ∧ accessedOn it' ≤ clock w'.
Proof.
  intros Hwf Hs. induction Hs as [|w o w1 os w2 Hop Hex _ IH]; intros p it Hp.
  { exists it. destruct (heap_item_ok w p it Hwf Hp) as (_ & ? & _). by repeat split. }
  destruct (exec_wf o w Hwf Hop) as (w1' & Hex' & Hwf1). simplify_eq.
  destruct (exec_heap o w w1 Hwf Hop Hex) as [_ Hstep].
  destruct (Hstep p it Hp) as (it1 & Hp1 & Hk & Hd & Hl & Hc & Hacc).
  destruct (IH Hwf1 p it1 Hp1) as (it' & Hp' & Hk' & Hd' & Hl' & Hc' & Ha' & Hnow).
  exists it'. split; [done|]. rewrite Hk', Hd', Hl', Hc'. do 4 (split; [done|]).
  split; [|done]. destruct (heap_item_ok w p it Hwf Hp) as (_ & ? & _).
  destruct Hacc as [[Ha _]|[Ha _]]; lia.
Qed.

(** X17. What the accessors marked immutable return never changes: for
    an item object of a well-formed world and any run of calls from it,
    [Key], [Data], [LifeSpan] and [CreatedOn] answer after the run what
    they answered before, [AccessedOn] answers an instant that is not
    earlier than before, not earlier than [CreatedOn] and not in the
    future, and the accessors themselves change nothing. *)
Theorem accessors_stable p w os w' :
  wf w → steps w os w' → (p < length (heap w))%nat →
  ∃ k d l c a a',
    ItemKey p w = Some (k, w) ∧ ItemKey p w' = Some (k, w') ∧
    Data p w = Some (d, w) ∧ Data p w' = Some (d, w') ∧
    LifeSpan p w = Some (l, w) ∧ LifeSpan p w' = Some (l, w') ∧
    CreatedOn p w = Some (c, w) ∧ CreatedOn p w' = Some (c, w') ∧
    AccessedOn p w = Some (a, w) ∧ AccessedOn p w' = Some (a', w') ∧
    c ≤ a ∧ a ≤ a' ∧ a' ≤ clock w'.
Proof.
  intros Hwf Hs [it Hp]%lookup_lt_is_Some.
  destruct (steps_fields w os w' Hwf Hs p it Hp)
    as (it' & Hp' & Hk & Hd & Hl & Hc & Ha & Hnow).
  destruct (heap_item_ok w p it Hwf Hp) as (Hca & _).
  exists (key it), (data it), (lifeSpan it), (createdOn it), (accessedOn it),
    (accessedOn it').
  unfold ItemKey, Data, LifeSpan, CreatedOn, AccessedOn.
  rewrite !(accessor_run _ p it w Hp), !(accessor_run _ p it' w' Hp').
  rewrite Hk, Hd, Hl, Hc. by repeat split.
Qed.

(** X18. Every entry is stored under its own key, in an object of its
    own: in every world a run of calls reaches from a new table, the
    item bound to a key answers that key to [Key], so no item object is
    bound to two keys. *)
Theorem entries_keyed w :
  reachable w →
  (∀ k p, items (table w) !! k = Some p → ItemKey p w = Some (k, w)) ∧
  (∀ k1 k2 p, items (table w) !! k1 = Some p → items (table w) !! k2 = Some p →
     k1 = k2).
Proof.
  intros ((Hv & _ & _ & Hky) & _)%reachable_inv. split.
  - intros k p Hk. destruct (Hv k p Hk) as [it Hit].
    unfold ItemKey. rewrite (accessor_run _ p it w Hit). by rewrite (Hky k p it).
  - intros k1 k2 p Hk1 Hk2. destruct (Hv k1 p Hk1) as [it Hit].
    by rewrite <- (Hky k1 p it Hk1 Hit), <- (Hky k2 p it Hk2 Hit).
Qed.

(** ** The scan run again *)

Lemma scan_events_none now hp t (kvs : list (K * loc)) :
  (∀ k p, (k, p) ∈ kvs → expired_at now hp p = false) →
  scan_events now hp t kvs = [].
Proof.
  induction kvs as [|[k p] kvs IH]; intros Hne; [done|].
  rewrite scan_events_cons, IH by (intros; eapply Hne; by right).
  rewrite app_nil_r. unfold scan_events; cbn [flat_map fst snd].
  specialize (Hne k p (list_elem_of_here _ _)). unfold expired_at in Hne.
  destruct (hp !! p); [|done]. by rewrite Hne.
Qed.

Lemma scan_items_none now hp (kvs : list (K * loc)) (m : gmap K loc) :
  (∀ k p, (k, p) ∈ kvs → expired_at now hp p = false) →
  scan_items now hp kvs m = m.
Proof.
  revert m. induction kvs as [|[k p] kvs IH]; intros m Hne; [done|].
  rewrite scan_items_cons. cbn [fst snd].
  rewrite (Hne k p) by left. apply IH. intros. eapply Hne. by right.
Qed.

Lemma Stop_Stop (c : option Timer) : Stop <$> (Stop <$> c) = Stop <$> c.
Proof. by destruct c. Qed.

(** The interval the scan computes depends on the entries it keeps, not
    on the order or on the entries it removes. *)
Lemma scan_smallest_again now hp (m : gmap K loc) :
  Forall (item_ok now) hp →
  scan_smallest now hp 0 (map_range (scan_items now hp (map_range m) m)) =
  scan_smallest now hp 0 (map_range m).
Proof.
  intros Hok. set (m1 := scan_items now hp (map_range m) m).
  assert (∀ k p it, hp !! p = Some it → expired now it = false →
            ((k, p) ∈ map_range m1 ↔ (k, p) ∈ map_range m)) as Hsame.
  { intros k p it Hp He. rewrite !elem_of_map_range. unfold m1.
    rewrite scan_items_range. destruct (m !! k) as [q|] eqn:Hq; [|done]. simpl.
    unfold expired_at. destruct (hp !! q) as [iq|] eqn:Hiq.
    - destruct (expired now iq) eqn:Heq; [|done]. split; [done|].
      intros [= ->]. congruence.
    - done. }
  destruct (scan_smallest_spec now hp (map_range m) 0 Hok) as (Hatt & _ & Hlow); [done|].
  destruct (scan_smallest_spec now hp (map_range m1) 0 Hok) as (Hatt1 & _ & Hlow1); [done|].
  destruct Hatt1 as [Hz1|(k & p & it & Hin & Hp & Hz & He & Hr)].
  - rewrite Hz1. destruct Hatt as [->|(k & p & it & Hin & Hp & Hz & He & Hr)]; [done|].
    apply (Hsame k p it Hp He) in Hin. destruct (Hlow1 k p it Hin Hp Hz He). lia.
  - pose proof Hin as Hin'. apply (Hsame k p it Hp He) in Hin'.
    destruct (Hlow k p it Hin' Hp Hz He) as [Hpos Hle].
    destruct Hatt as [Hz0|(k' & p' & it' & Hin0 & Hp0 & Hz0 & He0 & Hr0)]; [lia|].
    apply (Hsame k' p' it' Hp0 He0) in Hin0.
    destruct (Hlow1 k' p' it' Hin0 Hp0 Hz0 He0). lia.
Qed.

(** X19. The scan is idempotent: a second scan at the same instant
    removes nothing, calls nothing, and leaves the table, with its
    interval and its timer, exactly as the first scan left it; it only
    adds its two critical sections and its log line to the trace. *)
Theorem scan_idempotent w :
  wf w →
  ∃ w1 w2,
    expirationCheck w = Some ((), w1) ∧
    expirationCheck w1 = Some ((), w2) ∧
    clock w2 = clock w1 ∧ heap w2 = heap w1 ∧ table w2 = table w1 ∧
    trace w2 = trace w1 ++ [EvLock]
                 ++ log_ev (table w1) (scan_log (table w1))
                 ++ [EvUnlock; EvLock; EvUnlock].
Proof.
  intros Hwf. pose proof Hwf as (Hv & Hok & _).
  destruct (scan_frame w Hv) as (w1 & Hrun & Hc & Hh & _ & Hi & _).
  pose proof (scan_wf w w1 Hwf Hrun) as (Hv1 & _).
  rewrite expirationCheck_run in Hrun by done. injection Hrun as <-.
  exists (mkWorld (clock w) (heap w)
            (scan_table (clock w) (heap w) (map_range (items (table w))) (table w))
            (trace w ++ expirationCheck_events (clock w) (heap w)
                          (map_range (items (table w))) (table w))).
  eexists. split; [by apply expirationCheck_run|].
  split; [by apply expirationCheck_run|]. cbn [clock heap table trace].
  set (now := clock w). set (hp := heap w). set (m := items (table w)).
  set (t1 := scan_table now hp (map_range m) (table w)).
  assert (items t1 = scan_items now hp (map_range m) m) as Hm1
    by apply scan_table_items.
  assert (∀ k p, (k, p) ∈ map_range (items t1) → expired_at now hp p = false) as Hne.
  { intros k p Hin%elem_of_map_range. rewrite Hm1 in Hin. unfold m in Hin.
    rewrite scan_items_range in Hin. fold m in Hin.
    destruct (m !! k) as [q|]; [|done]. simpl in Hin.
    destruct (expired_at now hp q) eqn:He; [done|]. by simplify_eq. }
  do 2 (split; [done|]). split.
  - unfold scan_table at 1.
    rewrite (scan_items_none now hp _ _ Hne).
    assert (scan_smallest now hp 0 (map_range (items t1)) =
            scan_smallest now hp 0 (map_range m)) as ->.
    { rewrite Hm1. by apply scan_smallest_again. }
    unfold t1, scan_table. fold m.
    destruct (0 <? scan_smallest now hp 0 (map_range m)); cbn; [done|].
    by rewrite Stop_Stop.
  - unfold expirationCheck_events. rewrite (scan_events_none now hp _ _ Hne).
    by rewrite <- !app_assoc.
Qed.

(** ** The most accessed entries *)

Lemma elem_of_take_l {A} (x : A) n (l : list A) : x ∈ take n l → x ∈ l.
Proof. intros Hin. eapply elem_of_sublist; [done|apply sublist_take]. Qed.

Lemma omap_length_all {A B} (g : A → option B) (l : list A) :
  Forall (λ a, is_Some (g a)) l → length (omap g l) = length l.
Proof.
  induction 1 as [|a l [b Hb] _ IH]; [done|]. cbn. rewrite Hb. simpl. by rewrite IH.
Qed.

Lemma omap_NoDup {A B C} (g : A → option B) (h : A → C) (l : list A) :
  NoDup (h <$> l) →
  (∀ a1 a2 b, a1 ∈ l → a2 ∈ l → g a1 = Some b → g a2 = Some b → h a1 = h a2) →
  NoDup (omap g l).
Proof.
  induction l as [|a l IH]; intros Hnd Hinj; [constructor|].
  rewrite fmap_cons in Hnd. apply NoDup_cons in Hnd as [Ha Hnd]. cbn.
  assert (NoDup (omap g l)) as Hl.
  { apply IH; [done|]. intros a1 a2 b H1 H2. apply Hinj; by right. }
  destruct (g a) as [b|] eqn:Hb; [|done]. apply NoDup_cons. split; [|done].
  intros (a' & Ha' & Hb')%list_elem_of_omap. apply Ha.
  rewrite (Hinj a a' b); [|by left|by right|done..].
  apply list_elem_of_fmap. by exists a'.
Qed.

(** X20. [MostAccessed n], for an [int64] [n], returns exactly the
    smaller of [n] (0 when [n] is negative) and the size of the table
    many item pointers, with no pointer twice, and these are the most
    accessed ones: no entry of the table that is left out has more hits
    than an item that is returned. *)
Theorem MostAccessed_top n w :
  wf w → int64 n →
  ∃ rs w',
    MostAccessed n w = Some (rs, w') ∧
    length rs = (Z.to_nat n `min` size (items (table w)))%nat ∧
    NoDup rs ∧
    (∀ p k q, p ∈ rs → items (table w) !! k = Some q → q ∉ rs →
       hits_ge (heap w) p q).
Proof.
  intros (Hv & _ & _ & Hky) [_ Hn]. rewrite MostAccessed_run by done. cbv zeta.
  do 2 eexists. split; [done|].
  rewrite loop_result_take by done. rewrite Z.sub_0_r. cbn [app].
  set (kvs := map_range (items (table w))).
  set (sorted := sort_Sort (pair_of (heap w) <$> kvs)).
  set (g := λ v : CacheItemPair K, items (table w) !! Key v).
  assert (∀ v, v ∈ sorted → ∃ k p, v = pair_of (heap w) (k, p) ∧
            items (table w) !! k = Some p) as Hsrc.
  { intros v Hin. unfold sorted in Hin. rewrite sort_Sort_perm in Hin.
    apply list_elem_of_fmap in Hin as ([k p] & -> & Hin).
    exists k, p. split; [done|]. by apply elem_of_map_range. }
  assert (length sorted = size (items (table w))) as Hlen.
  { unfold sorted. rewrite sort_Sort_perm, length_fmap. unfold kvs.
    by rewrite map_range_perm, length_map_to_list. }
  split; [|split].
  - rewrite omap_length_all, length_take, Hlen; [done|].
    apply Forall_forall. intros v Hin%elem_of_take_l.
    destruct (Hsrc v Hin) as (k & p & -> & Hk). by exists p.
  - apply (omap_NoDup g Key).
    + apply (sublist_NoDup _ (Key <$> sorted)); [|apply fmap_sublist, sublist_take].
      unfold sorted. rewrite sort_Sort_perm, <- list_fmap_compose.
      apply map_range_NoDup.
    + intros v1 v2 p H1%elem_of_take_l H2%elem_of_take_l Hg1 Hg2.
      destruct (Hsrc v1 H1) as (k1 & p1 & -> & Hk1).
      destruct (Hsrc v2 H2) as (k2 & p2 & -> & Hk2).
      unfold g in Hg1, Hg2. cbn in *.
      destruct (Hv k1 p) as [it Hit]; [done|].
      by rewrite <- (Hky k1 p it Hg1 Hit), <- (Hky k2 p it Hg2 Hit).
  - intros p k q (v & Hin & Hg)%list_elem_of_omap Hk Hq ip iq Hip Hiq.
    assert (pair_of (heap w) (k, q) ∈ sorted) as Hin'.
    { unfold sorted. rewrite sort_Sort_perm. apply list_elem_of_fmap.
      exists (k, q). split; [done|]. by apply elem_of_map_range. }
    rewrite <- (take_drop (Z.to_nat n) sorted) in Hin'.
    apply elem_of_app in Hin' as [Hin'|Hin'].
    { exfalso. apply Hq. apply list_elem_of_omap. by exists (pair_of (heap w) (k, q)). }
    pose proof (sort_Sort_sorted (pair_of (heap w) <$> kvs)) as Hs. fold sorted in Hs.
    rewrite <- (take_drop (Z.to_nat n) sorted) in Hs.
    pose proof (StronglySorted_app_1_elem_of _ _ _ _ _ Hs Hin Hin') as Hle.
    cbv beta in Hle. unfold Less in Hle. apply Z.ltb_ge in Hle.
    destruct (Hsrc v (elem_of_take_l _ _ _ Hin)) as (kv & pv & -> & Hkv).
    unfold g in Hg. cbn in Hg, Hle. simplify_eq. by rewrite Hip, Hiq in Hle.
Qed.

(** ** [CacheItemPairList] as [sort.Interface] *)

Lemma Swap_lookup (i j m : nat) (ps : list (CacheItemPair K)) (a b : CacheItemPair K) :
  ps !! i = Some a → ps !! j = Some b →
  <[j := a]> (<[i := b]> ps) !! m =
    ps !! (if decide (m = j) then i else if decide (m = i) then j else m).
Proof.
  intros Hi Hj.
  pose proof (lookup_lt_Some _ _ _ Hi) as Hli.
  pose proof (lookup_lt_Some _ _ _ Hj) as Hlj.
  destruct (decide (m = j)) as [-> |Hmj].
  - rewrite list_lookup_insert_eq by (by rewrite length_insert). done.
  - rewrite list_lookup_insert_ne by done.
    destruct (decide (m = i)) as [-> |Hmi].
    + rewrite list_lookup_insert_eq by done. done.
    + by rewrite list_lookup_insert_ne.
Qed.

(** X21. [Swap i j] on indices inside the slice exchanges the two
    elements and leaves the others where they are: the slice keeps its
    length and its elements (a permutation), and a second [Swap i j]
    restores it. With an index outside the slice [Swap] panics. [Less]
    is the strict weak order [sort.Sort] needs: irreflexive, transitive,
    and with transitive incomparability. *)
Theorem pair_list_sort_interface (i j : nat) (ps : list (CacheItemPair K)) :
  (i < Len ps)%nat → (j < Len ps)%nat →
  (∃ ps', Swap i j ps = Some ps' ∧
     Len ps' = Len ps ∧ ps' ≡ₚ ps ∧
     ps' !! i = ps !! j ∧ ps' !! j = ps !! i ∧
     (∀ m : nat, m ≠ i → m ≠ j → ps' !! m = ps !! m) ∧
     Swap i j ps' = Some ps) ∧
  (∀ m : nat, (Len ps ≤ m)%nat → Swap m j ps = None ∧ Swap i m ps = None ∧
     Less_at m j ps = None ∧ Less_at i m ps = None) ∧
  Less_at i i ps = Some false ∧
  (∀ m : nat, Less_at i j ps = Some true → Less_at j m ps = Some true →
     Less_at i m ps = Some true) ∧
  (∀ m : nat, Less_at i j ps = Some false → Less_at j i ps = Some false →
     Less_at j m ps = Some false → Less_at m j ps = Some false →
     Less_at i m ps = Some false ∧ Less_at m i ps = Some false).
Proof.
  unfold Len. intros Hi Hj.
  destruct (lookup_lt_is_Some_2 _ _ Hi) as [a Ha].
  destruct (lookup_lt_is_Some_2 _ _ Hj) as [b Hb].
  split; [|split; [|split; [|split]]].
  - exists (<[j := a]> (<[i := b]> ps)).
    assert (Hlook : ∀ m : nat, <[j := a]> (<[i := b]> ps) !! m =
      ps !! (if decide (m = j) then i else if decide (m = i) then j else m))
      by (intros m; by apply Swap_lookup).
    split; [by unfold Swap; rewrite Ha, Hb|].
    split; [by rewrite !length_insert|].
    split; [|split; [|split; [|split]]].
    + apply Permutation_inj. split; [by rewrite !length_insert|].
      exists (λ m, if decide (m = j) then i else if decide (m = i) then j else m).
      split; [|exact Hlook].
      intros x y. repeat case_decide; intros; subst; congruence.
    + rewrite Hlook. repeat case_decide; subst; congruence.
    + rewrite Hlook. repeat case_decide; subst; congruence.
    + intros m Hmi Hmj. rewrite Hlook. by repeat case_decide.
    + assert (Hi' : <[j := a]> (<[i := b]> ps) !! i = Some b)
        by (rewrite Hlook; repeat case_decide; subst; congruence).
      assert (Hj' : <[j := a]> (<[i := b]> ps) !! j = Some a)
        by (rewrite Hlook; repeat case_decide; subst; congruence).
      unfold Swap. rewrite Hi', Hj'. f_equal.
      apply list_eq. intros m.
      rewrite (Swap_lookup _ _ _ _ _ _ Hi' Hj'), Hlook.
      repeat case_decide; subst; congruence.
  - intros m Hm. pose proof (lookup_ge_None_2 _ _ Hm) as Hn.
    unfold Swap, Less_at. rewrite Hn, Ha. done.
  - unfold Less_at, Less. rewrite Ha. f_equal. lia.
  - intros m. unfold Less_at, Less. rewrite Ha, Hb.
    destruct (ps !! m) as [c|]; [|done].
    intros ? ?. simplify_eq. f_equal. lia.
  - intros m. unfold Less_at, Less. rewrite Ha, Hb.
    destruct (ps !! m) as [c|]; [|done].
    intros ? ? ? ?. simplify_eq. split; f_equal; lia.
Qed.

End extras.

(** ** The further properties at work on the example worlds *)

Lemma reachable_w1 : reachable Example.w1.
Proof. exists 0, "t"%string, Example.ops1. exact steps_w1. Qed.

Lemma int64_small n : -1000 ≤ n ≤ 1000 → int64 n.
Proof. unfold int64, min_int64, max_int64. lia. Qed.

Lemma KeepAlive_spec_witness :
  heap Example.w1 !! 0%nat = Some (mkCacheItem 1%nat "a"%string 10 0 6 1 None) ∧
  int64 1 ∧
  ∃ w' it', KeepAlive 0%nat Example.w1 = Some ((), w') ∧
            heap w' !! 0%nat = Some it' ∧ accessedOn it' = 7.
Proof.
  assert (int64 1) as Hn by (apply int64_small; lia).
  split; [reflexivity|]. split; [exact Hn|].
  destruct (KeepAlive_spec 0%nat _ Example.w1 eq_refl Hn)
    as (w' & it' & Hrun & Hit & Hacc & _).
  exists w', it'. split; [exact Hrun|]. split; [exact Hit|exact Hacc].
Defined.

Lemma Value_hit_witness :
  items (table Example.w1) !! 1%nat = Some 0%nat ∧
  heap Example.w1 !! 0%nat = Some (mkCacheItem 1%nat "a"%string 10 0 6 1 None) ∧
  ∃ w' it', Value 1%nat [] Example.w1 = Some (inl 0%nat, w') ∧
            heap w' !! 0%nat = Some it' ∧ accessedOn it' = 7.
Proof.
  split; [reflexivity|]. split; [reflexivity|].
  destruct (Value_hit 1%nat [] 0%nat _ Example.w1 eq_refl eq_refl)
    as (w' & it' & Hrun & Hit & Hacc & _).
  exists w', it'. split; [exact Hrun|]. split; [exact Hit|exact Hacc].
Defined.

Lemma Exists_spec_witness :
  wf Example.w1 ∧
  ∃ b w', Exists 1%nat Example.w1 = Some (b, w') ∧ table w' = table Example.w1.
Proof.
  split; [apply wf_w1|].
  destruct (Exists_spec 1%nat Example.w1 wf_w1)
    as (b & w' & Hrun & _ & _ & _ & _ & _ & Ht & _).
  exists b, w'. split; [exact Hrun|exact Ht].
Defined.



Lemma Delete_then_witness :
  wf Example.w1 ∧ items (table Example.w1) !! 3%nat = Some 2%nat ∧
  ∃ w1 w2, Delete 3%nat Example.w1 = Some (inl 2%nat, w1) ∧
           Delete 3%nat w1 = Some (inr ErrKeyNotFound, w2).
Proof.
  split; [apply wf_w1|]. split; [reflexivity|].
  destruct (Delete_then 3%nat 2%nat Example.w1 wf_w1 eq_refl)
    as (w1 & Hdel & (w2 & Hagain) & _).
  exists w1, w2. split; [exact Hdel|exact Hagain].
Defined.


Lemma Foreach_visits_witness :
  wf Example.w1 ∧
  ∃ w' visits, Foreach 12%nat Example.w1 = Some ((), w') ∧
               visits ≡ₚ map_to_list (items (table Example.w1)).
Proof.
  split; [apply wf_w1|].
  destruct (Foreach_visits 12%nat Example.w1 wf_w1)
    as (w' & visits & Hrun & _ & Hperm & _).
  exists w', visits. split; [exact Hrun|exact Hperm].
Defined.



Lemma negative_lifeSpan_witness :
  wf Example.w1 ∧ -1 < 0 ∧
  ∃ w1 w3, Add 9%nat (-1) "x"%string Example.w1 = Some (3%nat, w1) ∧
           expirationCheck w1 = Some ((), w3) ∧
           items (table w3) !! 9%nat = None.
Proof.
  assert (-1 < 0) as Hneg by lia.
  split; [apply wf_w1|]. split; [exact Hneg|].
  destruct (negative_lifeSpan 9%nat (-1) "x"%string Example.w1 wf_w1 Hneg)
    as ((w1 & Hadd & _ & _ & _ & _ & Hscan) & _).
  destruct (Hscan 0%N) as (w3 & Hrun & Hk).
  exists w1, w3. split; [exact Hadd|]. split; [|exact Hk].
  destruct w1 as [c h t tr]. cbn [clock heap table trace] in Hrun.
  rewrite Z.add_0_r in Hrun. exact Hrun.
Defined.

Lemma Value_restarts_lifeSpan_witness :
  wf Example.w1 ∧ items (table Example.w1) !! 1%nat = Some 0%nat ∧
  heap Example.w1 !! 0%nat = Some (mkCacheItem 1%nat "a"%string 10 0 6 1 None) ∧
  0 < 10 ∧
  ∃ w1 w3, Value 1%nat [] Example.w1 = Some (inl 0%nat, w1) ∧
           expirationCheck (mkWorld (clock w1 + 9) (heap w1) (table w1) (trace w1))
             = Some ((), w3) ∧
           items (table w3) !! 1%nat = Some 0%nat.
Proof.
  assert (0 < 10) as Hpos by lia.
  split; [apply wf_w1|]. split; [reflexivity|]. split; [reflexivity|].
  split; [exact Hpos|].
  destruct (Value_restarts_lifeSpan 1%nat [] 0%nat _ 9%N Example.w1 wf_w1
              eq_refl eq_refl Hpos)
    as (w1 & w3 & Hval & Hscan & Hkept & _).
  exists w1, w3. split; [exact Hval|]. split; [exact Hscan|].
  apply Hkept. reflexivity.
Defined.

Lemma scheduler_state_witness :
  reachable Example.w1 ∧
  ∀ c, pendingTimer (table Example.w1) = Some c → timer_d c = 5.
Proof.
  split; [apply reachable_w1|].
  destruct (scheduler_state Example.w1 reachable_w1) as (_ & _ & Harmed).
  intros c Hc. destruct (Harmed c Hc) as [Hd _]. exact Hd.
Defined.



Lemma accessors_stable_witness :
  wf Example.w1 ∧ steps Example.w1 Example.ops2 Example.w2 ∧
  (0 < length (heap Example.w1))%nat ∧
  ∃ k d, ItemKey 0%nat Example.w1 = Some (k, Example.w1) ∧
         ItemKey 0%nat Example.w2 = Some (k, Example.w2) ∧
         Data 0%nat Example.w1 = Some (d, Example.w1) ∧
         Data 0%nat Example.w2 = Some (d, Example.w2).
Proof.
  assert (0 < length (heap Example.w1))%nat as Hp by (vm_compute; lia).
  split; [apply wf_w1|]. split; [apply steps_w2|]. split; [exact Hp|].
  destruct (accessors_stable 0%nat Example.w1 Example.ops2 Example.w2
              wf_w1 steps_w2 Hp)
    as (k & d & l & c & a & a' & Hk & Hk' & Hd & Hd' & _).
  exists k, d. split; [exact Hk|]. split; [exact Hk'|]. split; [exact Hd|exact Hd'].
Defined.

Lemma entries_keyed_witness :
  reachable Example.w1 ∧ ItemKey 2%nat Example.w1 = Some (3%nat, Example.w1).
Proof.
  split; [apply reachable_w1|].
  destruct (entries_keyed Example.w1 reachable_w1) as (Hkey & _).
  exact (Hkey 3%nat 2%nat eq_refl).
Defined.

Lemma scan_idempotent_witness :
  wf Example.w1 ∧
  ∃ w1 w2, expirationCheck Example.w1 = Some ((), w1) ∧
           expirationCheck w1 = Some ((), w2) ∧
           heap w2 = heap w1 ∧ table w2 = table w1.
Proof.
  split; [apply wf_w1|].
  destruct (scan_idempotent Example.w1 wf_w1)
    as (w1 & w2 & Hrun & Hagain & _ & Hheap & Ht & _).
  exists w1, w2. split; [exact Hrun|]. split; [exact Hagain|].
  split; [exact Hheap|exact Ht].
Defined.

Lemma MostAccessed_top_witness :
  wf Example.w1 ∧ int64 2 ∧
  ∃ rs w', MostAccessed 2 Example.w1 = Some (rs, w') ∧ length rs = 2%nat.
Proof.
  assert (int64 2) as Hn by (apply int64_small; lia).
  split; [apply wf_w1|]. split; [exact Hn|].
  destruct (MostAccessed_top 2 Example.w1 wf_w1 Hn)
    as (rs & w' & Hrun & Hlen & _).
  exists rs, w'. split; [exact Hrun|exact Hlen].
Defined.

Lemma pair_list_sort_interface_witness :
  (0 < Len Example.pairs)%nat ∧ (1 < Len Example.pairs)%nat ∧
  ∃ ps', Swap 0 1 Example.pairs = Some ps' ∧ ps' ≡ₚ Example.pairs ∧
         Swap 0 1 ps' = Some Example.pairs.
Proof.
  assert (0 < Len Example.pairs)%nat as H0 by (vm_compute; lia).
  assert (1 < Len Example.pairs)%nat as H1 by (vm_compute; lia).
  split; [exact H0|]. split; [exact H1|].
  destruct (pair_list_sort_interface 0 1 Example.pairs H0 H1)
    as ((ps' & Hswap & _ & Hperm & _ & _ & _ & Hback) & _).
  exists ps'. split; [exact Hswap|]. split; [exact Hperm|exact Hback].
Defined.

